(** * XLEAP-SBS colour balance validator: a shallow embedding of
      [core/validator.py] and the properties of its specification.

    - A Python [str] is a [string]. A base, which Python has as a
      one-character [str], stays a [string], so the channel table keeps its
      string keys and the analyzer can be given any list of strings.
    - The string methods are Python's on the characters below 128:
      [str.strip] removes the ten white-space characters of that range and
      [str.upper] maps [a-z] to [A-Z]. The characters from 128 on are carried
      along unchanged; texts outside ASCII are outside the model.
    - An exception is a value of [exn] carried by [result]; the generator
      that [any] consumes stops at the first true value, the one that [sum]
      consumes runs to its end.
    - The order in which the interpreter lists the elements of a set is a
      parameter of the validator, which prints the set of lengths. *)

From Stdlib Require Import Ascii.
From stdpp Require Import gmap strings list pretty sorting.

Local Set Warnings "-clear-no-such-hyp".

(** ** Python string methods *)

Module PyStr.

(** [str.isspace] on one character. *)
Definition isspace (c : ascii) : bool :=
  match c with
  | "009" | "010" | "011" | "012" | "013"
  | "028" | "029" | "030" | "031" | " " => true
  | _ => false
  end%char.

Fixpoint lstrip (s : string) : string :=
  match s with
  | EmptyString => EmptyString
  | String c s' => if isspace c then lstrip s' else s
  end.

Fixpoint rstrip (s : string) : string :=
  match s with
  | EmptyString => EmptyString
  | String c s' =>
      match rstrip s' with
      | EmptyString => if isspace c then EmptyString else String c EmptyString
      | r => String c r
      end
  end.

(** [s.strip()] *)
Definition strip (s : string) : string := rstrip (lstrip s).

Definition upper_char (c : ascii) : ascii :=
  let n := nat_of_ascii c in
  if (97 <=? n) && (n <=? 122) then ascii_of_nat (n - 32) else c.

(** [s.upper()] *)
Fixpoint upper (s : string) : string :=
  match s with
  | EmptyString => EmptyString
  | String c s' => String (upper_char c) (upper s')
  end.

(** [c in s] for a one-character [c]. *)
Fixpoint contains (c : ascii) (s : string) : bool :=
  match s with
  | EmptyString => false
  | String a s' => if Ascii.eqb a c then true else contains c s'
  end.

(** [s.split(sep)] for a one-character [sep]: every occurrence cuts, empty
    pieces are kept, and a string without [sep] is returned whole. *)
Fixpoint split (sep : ascii) (s : string) : list string :=
  match s with
  | EmptyString => [EmptyString]
  | String a s' =>
      if Ascii.eqb a sep then EmptyString :: split sep s'
      else match split sep s' with
           | [] => [String a EmptyString]
           | t :: ts => String a t :: ts
           end
  end.

(** [sep.join(l)] *)
Fixpoint join (sep : string) (l : list string) : string :=
  match l with
  | [] => EmptyString
  | [t] => t
  | t :: ts => t +:+ sep +:+ join sep ts
  end.

(** [all(p(c) for c in s)] *)
Fixpoint all (p : ascii → bool) (s : string) : bool :=
  match s with
  | EmptyString => true
  | String c s' => if p c then all p s' else false
  end.

(** Truth value of a string: the empty string is false. *)
Definition truthy (s : string) : bool :=
  match s with EmptyString => false | String _ _ => true end.

(** The characters of a string as one-character strings, which is what
    iterating over a [str] or indexing it gives. *)
Definition char (c : ascii) : string := String c EmptyString.

(** [list(s)]: the one-character strings of [s]. *)
Fixpoint chars (s : string) : list string :=
  match s with
  | EmptyString => []
  | String c s' => char c :: chars s'
  end.

End PyStr.

(** ** Parser *)

Definition nl : ascii := "010"%char.
Definition comma : ascii := ","%char.
Definition tab : ascii := "009"%char.

(** The candidate tokens, [raw_indexes] in the source: one separator is
    looked for in the stripped text. *)
Definition split_candidates (text : string) : list string :=
  if PyStr.contains nl text then PyStr.split nl text
  else if PyStr.contains comma text then PyStr.split comma text
  else if PyStr.contains tab text then PyStr.split tab text
  else [text].

Definition raw_indexes (input_text : string) : list string :=
  split_candidates (PyStr.strip input_text).

(** [base in 'ACGT'] *)
Definition in_ACGT (base : ascii) : bool := PyStr.contains base "ACGT".

(** One turn of the cleaning loop. *)
Definition clean_step (indexes : list string) (idx : string) : list string :=
  let cleaned := PyStr.upper (PyStr.strip idx) in
  if negb (PyStr.truthy cleaned) then indexes
  else if PyStr.all in_ACGT cleaned then indexes ++ [cleaned]
  else indexes.

Definition parse_indexes (input_text : string) : list string :=
  foldl clean_step [] (raw_indexes input_text).

(** ** Exceptions *)

Inductive exn : Type :=
  | KeyError (key : string)
  | IndexError.

Inductive result (A : Type) : Type :=
  | Ok (a : A)
  | Raise (e : exn).
Arguments Ok {A} a.
Arguments Raise {A} e.

Global Instance result_ret : MRet result := λ A a, Ok a.
Global Instance result_bind : MBind result := λ A B f m,
  match m with
  | Ok a => f a
  | Raise e => Raise e
  end.

Global Instance result_fmap : FMap result := λ A B f m,
  match m with
  | Ok a => Ok (f a)
  | Raise e => Raise e
  end.

(** A [for] loop over a list that threads the loop's variables and stops at
    the first exception. *)
Fixpoint for_each {S A : Type} (body : S → A → result S) (st : S) (l : list A)
  : result S :=
  match l with
  | [] => Ok st
  | x :: l' => st' ← body st x; for_each body st' l'
  end.

(** [s[i]] for [0 <= i]. *)
Definition str_getitem (s : string) (i : nat) : result string :=
  match PyStr.chars s !! i with
  | Some c => Ok c
  | None => Raise IndexError
  end.

(** ** Channel model *)

Record profile : Type := Profile {
  blue : bool;
  green : bool;
  label : string
}.

Definition XLEAP_COLORS : gmap string profile :=
  list_to_map [
    ("A", Profile true  false "Blue only");
    ("C", Profile true  true  "Both (dual)");
    ("G", Profile false false "Dark (no signal)");
    ("T", Profile false true  "Green only")
  ].

(** [XLEAP_COLORS[b]] *)
Definition colors_getitem (b : string) : result profile :=
  match XLEAP_COLORS !! b with
  | Some p => Ok p
  | None => Raise (KeyError b)
  end.

(** [XLEAP_COLORS.get(base.upper(), default)] *)
Definition get_color_profile (base : string) : profile :=
  default (Profile false false "Unknown") (XLEAP_COLORS !! PyStr.upper base).

(** ** Position analyzer *)

Record PositionResult : Type := {
  position : Z;
  bases : list string;
  has_blue : bool;
  has_green : bool;
  is_balanced : bool;
  unique_bases : nat;
  recommendation : option string
}.

(** [any(XLEAP_COLORS[b][ch] for b in bases)]: the generator is consumed
    up to the first true value, so later bases are not looked up. *)
Fixpoint any_channel (ch : profile → bool) (bases : list string) : result bool :=
  match bases with
  | [] => Ok false
  | b :: rest =>
      p ← colors_getitem b;
      if ch p then Ok true else any_channel ch rest
  end.

Definition msg_dark (position : Z) : string :=
  "Position " +:+ pretty (position + 1)%Z
  +:+ ": All bases are G (dark). Add indexes with A, C, or T.".
Definition msg_no_blue (position : Z) : string :=
  "Position " +:+ pretty (position + 1)%Z
  +:+ ": No blue signal. Add indexes with A or C.".
Definition msg_no_green (position : Z) : string :=
  "Position " +:+ pretty (position + 1)%Z
  +:+ ": No green signal. Add indexes with C or T.".
Definition msg_low_diversity (position : Z) (unique_bases : nat) : string :=
  "Position " +:+ pretty (position + 1)%Z
  +:+ ": Low diversity (" +:+ pretty unique_bases
  +:+ " unique base). Consider more varied indexes.".

Definition check_position_balance (position : Z) (bases : list string)
  : result PositionResult :=
  has_blue ← any_channel blue bases;
  has_green ← any_channel green bases;
  let unique_bases := size (list_to_set bases : gset string) in
  let is_balanced := has_blue && has_green in
  let recommendation :=
    if negb is_balanced then
      if negb has_blue && negb has_green then Some (msg_dark position)
      else if negb has_blue then Some (msg_no_blue position)
      else if negb has_green then Some (msg_no_green position)
      else None
    else if unique_bases <? 2 then
      Some (msg_low_diversity position unique_bases)
    else None in
  Ok {| position := position + 1;
        bases := bases;
        has_blue := has_blue;
        has_green := has_green;
        is_balanced := is_balanced;
        unique_bases := unique_bases;
        recommendation := recommendation |}.

(** ** Aggregate validator *)

Record ValidationResult : Type := {
  is_valid : bool;
  total_positions : nat;
  positions : list PositionResult;
  failed_positions : list Z;
  warnings : list string;
  summary : string
}.

(** [[idx[pos] for idx in indexes]] *)
Definition bases_at (indexes : list string) (pos : nat) : result (list string) :=
  mapM (λ idx, str_getitem idx pos) indexes.

(** The three lists the position loop appends to. *)
Record loop_state : Type := LoopState {
  st_positions : list PositionResult;
  st_failed : list Z;
  st_warnings : list string
}.

Definition validate_step (indexes : list string) (st : loop_state) (pos : nat)
  : result loop_state :=
  bases_at_pos ← bases_at indexes pos;
  res ← check_position_balance (Z.of_nat pos) bases_at_pos;
  let positions := st_positions st ++ [res] in
  let failed_positions :=
    if negb (is_balanced res) then st_failed st ++ [position res]
    else st_failed st in
  let warnings :=
    match recommendation res with
    | Some s => if PyStr.truthy s then st_warnings st ++ [s] else st_warnings st
    | None => st_warnings st
    end in
  Ok (LoopState positions failed_positions warnings).

Definition msg_single : string :=
  "Only 1 index provided. Color balance requires multiple pooled samples.".

Definition summary_of (is_valid : bool) (warnings : list string)
    (failed : nat) (index_length : nat) : string :=
  if is_valid then
    if bool_decide (warnings ≠ []) then
      "PASS with warnings. All " +:+ pretty index_length
      +:+ " positions are color-balanced."
    else
      "PASS. All " +:+ pretty index_length +:+ " positions are color-balanced."
  else
    "FAIL. " +:+ pretty failed +:+ " of " +:+ pretty index_length
    +:+ " positions lack color balance.".

Definition empty_result : ValidationResult :=
  {| is_valid := false;
     total_positions := 0;
     positions := [];
     failed_positions := [];
     warnings := ["No indexes provided."];
     summary := "No indexes to validate." |}.

Section Validator.

(** The order in which the interpreter lists the elements of a set of
    integers when it prints the set; the language leaves it open, and it can
    depend on how the set was built, so that each call has its own. *)
Variable set_order : gset nat → list nat.

(** [f"{lengths}"]: the elements between braces, and [set()] for the empty
    set. *)
Definition repr_set (lengths : gset nat) : string :=
  if decide (lengths = ∅) then "set()"
  else "{" +:+ PyStr.join ", " (pretty <$> set_order lengths) +:+ "}".

Definition msg_lengths (lengths : gset nat) : string :=
  "Indexes have different lengths: " +:+ repr_set lengths
  +:+ ". All indexes must be the same length.".

Definition mismatch_result (lengths : gset nat) : ValidationResult :=
  {| is_valid := false;
     total_positions := 0;
     positions := [];
     failed_positions := [];
     warnings := [msg_lengths lengths];
     summary := "Index length mismatch." |}.

Definition validate_indexes (indexes : list string) : result ValidationResult :=
  match indexes with
  | [] => Ok empty_result
  | first :: _ =>
      let lengths : gset nat := list_to_set (String.length <$> indexes) in
      if 1 <? size lengths then Ok (mismatch_result lengths)
      else
        let index_length := String.length first in
        st ← for_each (validate_step indexes) (LoopState [] [] [])
               (seq 0 index_length);
        let warnings :=
          if length indexes <? 2 then msg_single :: st_warnings st
          else st_warnings st in
        let is_valid := length (st_failed st) =? 0 in
        Ok {| is_valid := is_valid;
              total_positions := index_length;
              positions := st_positions st;
              failed_positions := st_failed st;
              warnings := warnings;
              summary := summary_of is_valid warnings
                           (length (st_failed st)) index_length |}
  end.

Definition validate_from_text (input_text : string) : result ValidationResult :=
  validate_indexes (parse_indexes input_text).

End Validator.

(** ** Table builder *)

Module TableRow.
Record t : Type := {
  position : Z;
  bases : list string;
  base_counts : gmap string nat;
  blue_count : nat;
  green_count : nat;
  has_blue : bool;
  has_green : bool;
  is_balanced : bool;
  status : string
}.
End TableRow.

(** [sum(1 for b in bases if XLEAP_COLORS[b][ch])]: every base is looked up. *)
Fixpoint count_channel (ch : profile → bool) (bases : list string) : result nat :=
  match bases with
  | [] => Ok 0
  | b :: rest =>
      p ← colors_getitem b;
      n ← count_channel ch rest;
      Ok (if ch p then S n else n)
  end.

(** [bases.count(b)] *)
Definition list_count (b : string) (bases : list string) : nat :=
  length (filter (λ x, x = b) bases).

Definition table_row (indexes : list string) (pos : nat) : result TableRow.t :=
  bases ← bases_at indexes pos;
  blue_count ← count_channel blue bases;
  green_count ← count_channel green bases;
  let has_blue := 0 <? blue_count in
  let has_green := 0 <? green_count in
  Ok {| TableRow.position := Z.of_nat pos + 1;
        TableRow.bases := bases;
        TableRow.base_counts :=
          list_to_map ((λ b, (b, list_count b bases)) <$> PyStr.chars "ACGT");
        TableRow.blue_count := blue_count;
        TableRow.green_count := green_count;
        TableRow.has_blue := has_blue;
        TableRow.has_green := has_green;
        TableRow.is_balanced := has_blue && has_green;
        TableRow.status := if has_blue && has_green then "pass" else "fail" |}.

Definition get_color_balance_table (indexes : list string) : result (list TableRow.t) :=
  match indexes with
  | [] => Ok []
  | first :: _ =>
      for_each (λ table pos, row ← table_row indexes pos; Ok (table ++ [row]))
        [] (seq 0 (String.length first))
  end.

(** ** The route that checks a form ([app.py]) *)

(** What the view returns: a redirect to an endpoint after one flashed
    message with its category, or the results template with the arguments
    that vary (the channel table it also passes is the constant above). *)
Inductive response : Type :=
  | Redirect (endpoint message category : string)
  | Render (template : string) (res : ValidationResult)
      (table : list TableRow.t) (indexes : list string).

(** [check()], as a function of the form of the request: a field that is
    absent reads as the empty string. *)
Definition check (set_order : gset nat → list nat) (form : gmap string string)
  : result response :=
  let index_text := PyStr.strip (default EmptyString (form !! "indexes")) in
  if negb (PyStr.truthy index_text) then
    Ok (Redirect "index" "Please enter at least one index sequence." "error")
  else
    let indexes := parse_indexes index_text in
    match indexes with
    | [] =>
        Ok (Redirect "index"
              "No valid index sequences found. Use only A, C, G, T characters."
              "error")
    | _ :: _ =>
        res ← validate_from_text set_order index_text;
        table ← get_color_balance_table indexes;
        Ok (Render "results.html" res table indexes)
    end.

(** * Vocabulary of the specification *)

(** Symbols and sequences. *)
Definition is_base (c : ascii) : Prop :=
  c = "A"%char ∨ c = "C"%char ∨ c = "G"%char ∨ c = "T"%char.

Definition is_base_any_case (c : ascii) : Prop :=
  is_base c ∨ c = "a"%char ∨ c = "c"%char ∨ c = "g"%char ∨ c = "t"%char.

(** The characters of a string. *)
Fixpoint letters (s : string) : list ascii :=
  match s with
  | EmptyString => []
  | String c s' => c :: letters s'
  end.

Definition is_sequence (s : string) : Prop := Forall is_base (letters s).

(** [l] is [t] cut at every [sep]: the pieces joined by [sep] give [t] back
    and no piece contains [sep]. *)
Definition cut_at (sep : ascii) (t : string) (l : list string) : Prop :=
  l ≠ [] ∧ PyStr.join (PyStr.char sep) l = t ∧ Forall (λ p, sep ∉ letters p) l.

(** What the loop keeps of a candidate token. *)
Definition cleaned (tok : string) : string := PyStr.upper (PyStr.strip tok).

(** A candidate is accepted when, stripped, it is not empty and made of the
    four symbols in either case. *)
Definition accepted (tok : string) : Prop :=
  PyStr.strip tok ≠ EmptyString ∧ Forall is_base_any_case (letters (PyStr.strip tok)).

Global Instance is_base_any_case_dec c : Decision (is_base_any_case c).
Proof. unfold is_base_any_case, is_base. apply _. Defined.

Global Instance accepted_dec tok : Decision (accepted tok).
Proof. unfold accepted. apply _. Defined.

(** A base as the analyzer receives it: a one-character string. *)
Definition is_base_str (b : string) : Prop :=
  b = "A" ∨ b = "C" ∨ b = "G" ∨ b = "T".

(** [b] has channel [ch] in the channel table. *)
Definition emits (ch : profile → bool) (b : string) : Prop :=
  ∃ p, XLEAP_COLORS !! b = Some p ∧ ch p = true.

(** The recommendation policy of the specification: the first rule that
    matches wins. *)
Definition recommendation_policy (position : Z) (has_blue has_green : bool)
    (unique_bases : nat) : option string :=
  if negb has_blue && negb has_green then Some (msg_dark position)
  else if negb has_blue then Some (msg_no_blue position)
  else if negb has_green then Some (msg_no_green position)
  else if bool_decide (unique_bases < 2) then
    Some (msg_low_diversity position unique_bases)
  else None.

(** All indexes have the same length; more than one distinct length. *)
Definition equal_length (indexes : list string) : Prop :=
  ∀ s1 s2, s1 ∈ indexes → s2 ∈ indexes → String.length s1 = String.length s2.

Definition mixed_lengths (indexes : list string) : Prop :=
  ∃ s1 s2, s1 ∈ indexes ∧ s2 ∈ indexes ∧ String.length s1 ≠ String.length s2.

(** The set of lengths the validator computes. *)
Definition lengths_of (indexes : list string) : gset nat :=
  list_to_set (String.length <$> indexes).

(** [r] is the analysis of position [pos] (counted from 0) of [indexes]. *)
Definition analysed (indexes : list string) (pos : nat) (r : PositionResult)
  : Prop :=
  ∃ l, bases_at indexes pos = Ok l
     ∧ check_position_balance (Z.of_nat pos) l = Ok r.

(** The 1-based numbers of [n] positions. *)
Definition numbers (n : nat) : list Z := (λ i, Z.of_nat i + 1)%Z <$> seq 0 n.

Definition unbalanced (r : PositionResult) : Prop := is_balanced r = false.

Global Instance unbalanced_dec r : Decision (unbalanced r).
Proof. unfold unbalanced. apply _. Defined.

(** One order in which a set can be listed, for running the model. *)
Definition order0 : gset nat → list nat := elements.

(** The separator policy of the parser, with [seen] the text in which the
    separators are looked for: the first of newline, comma and tab that
    [seen input_text] contains cuts the stripped text into the candidates;
    without any of them the stripped text is the only candidate. *)
Definition separator_priority (seen : string → string) (input_text : string)
  : Prop :=
  let t := PyStr.strip input_text in
  let s := letters (seen input_text) in
  (nl ∈ s → cut_at nl t (raw_indexes input_text))
  ∧ (nl ∉ s → comma ∈ s → cut_at comma t (raw_indexes input_text))
  ∧ (nl ∉ s → comma ∉ s → tab ∈ s → cut_at tab t (raw_indexes input_text))
  ∧ (nl ∉ s → comma ∉ s → tab ∉ s → raw_indexes input_text = [t]).

(** Some index has at position [pos], counted from 0, a symbol that
    satisfies [P]; the column at [pos] is balanced when one of its symbols
    is A or C and one is C or T. *)
Definition column_has (indexes : list string) (pos : nat) (P : ascii → Prop)
  : Prop :=
  ∃ idx c, idx ∈ indexes ∧ letters idx !! pos = Some c ∧ P c.

Definition column_balanced (indexes : list string) (pos : nat) : Prop :=
  column_has indexes pos (λ c, c = "A"%char ∨ c = "C"%char)
  ∧ column_has indexes pos (λ c, c = "C"%char ∨ c = "T"%char).

(** ** Tactics for concrete inputs *)

(** Concrete lists of bases. *)
Ltac solve_bases :=
  repeat (apply Forall_cons; split; [unfold is_base_str; auto 6|]);
  apply Forall_nil_2.

(** Concrete sequences and concrete collections of them. *)
Ltac solve_sequence :=
  unfold is_sequence; simpl;
  repeat (apply Forall_cons; split; [unfold is_base; auto 6|]);
  apply Forall_nil_2.

Ltac solve_sequences :=
  repeat (apply Forall_cons; split; [solve_sequence|]); apply Forall_nil_2.

Ltac solve_lengths :=
  repeat (apply Forall_cons; split; [reflexivity|]); apply Forall_nil_2.

(** Two analyses of one position that differ at most in the order of the
    bases. *)
Definition same_analysis (p p' : PositionResult) : Prop :=
  position p = position p'
  ∧ bases p ≡ₚ bases p'
  ∧ has_blue p = has_blue p'
  ∧ has_green p = has_green p'
  ∧ is_balanced p = is_balanced p'
  ∧ unique_bases p = unique_bases p'
  ∧ recommendation p = recommendation p'.

(** The base that index [idx] has at position [pos], if it is that long. *)
Definition base_at (pos : nat) (idx : string) : string :=
  default EmptyString (PyStr.chars idx !! pos).

(** The text that the route works on: the field of the form, stripped. *)
Definition form_text (form : gmap string string) : string :=
  PyStr.strip (default EmptyString (form !! "indexes")).

Definition msg_please_enter : string :=
  "Please enter at least one index sequence.".
Definition msg_no_valid : string :=
  "No valid index sequences found. Use only A, C, G, T characters.".

(** * The tests of the repository, run on the model *)

Example parse_newlines :
  parse_indexes (PyStr.join (PyStr.char nl) ["ATCG"; "GCTA"; "TTAA"])
  = ["ATCG"; "GCTA"; "TTAA"].
Proof. reflexivity. Qed.

Example parse_commas : parse_indexes "atcg, gcta" = ["ATCG"; "GCTA"].
Proof. reflexivity. Qed.

Example test_balanced_indexes_pass :
  (λ r, (is_valid r, failed_positions r)) <$>
    validate_indexes order0 ["ATCG"; "CGTA"; "TGCA"; "GACT"]
  = Ok (true, []).
Proof. vm_compute. reflexivity. Qed.

(** * Facts about the string methods *)

Module PyStrFacts.
Import PyStr.

Lemma contains_elem c s : contains c s = true ↔ c ∈ letters s.
Proof.
  induction s as [|a s IH]; simpl.
  - split; [done | by intros ?%elem_of_nil].
  - rewrite elem_of_cons. destruct (Ascii.eqb_spec a c) as [->|Hne].
    + naive_solver.
    + rewrite IH. naive_solver.
Qed.

Lemma contains_false c s : contains c s = false ↔ c ∉ letters s.
Proof. rewrite <- contains_elem. by destruct (contains c s). Qed.

Lemma in_ACGT_base c : in_ACGT c = true ↔ is_base c.
Proof.
  unfold in_ACGT. rewrite contains_elem. simpl.
  rewrite !elem_of_cons, elem_of_nil. unfold is_base. naive_solver.
Qed.

Lemma all_Forall p s : all p s = true ↔ Forall (λ c, p c = true) (letters s).
Proof.
  induction s as [|a s IH]; simpl.
  - split; [constructor | done].
  - rewrite Forall_cons. destruct (p a); naive_solver.
Qed.

Lemma upper_char_base c : in_ACGT (upper_char c) = contains c "ACGTacgt".
Proof. by destruct c as [[] [] [] [] [] [] [] []]. Qed.

Lemma upper_char_idem c : upper_char (upper_char c) = upper_char c.
Proof. by destruct c as [[] [] [] [] [] [] [] []]. Qed.

Lemma any_case_contains c : contains c "ACGTacgt" = true ↔ is_base_any_case c.
Proof.
  rewrite contains_elem. simpl. rewrite !elem_of_cons, elem_of_nil.
  unfold is_base_any_case, is_base. naive_solver.
Qed.

Lemma letters_upper s : letters (upper s) = upper_char <$> letters s.
Proof. induction s; simpl; by f_equal. Qed.

Lemma upper_fixed s : Forall is_base (letters s) → upper s = s.
Proof.
  induction s as [|a s IH]; simpl; [done|].
  intros [Ha Hs]%Forall_cons. f_equal; [|by apply IH].
  by destruct Ha as [-> | [-> | [-> | ->]]].
Qed.

Lemma truthy_ne s : truthy s = true ↔ s ≠ EmptyString.
Proof. by destruct s. Qed.

(** *** Stripping *)

Lemma app_String a s t : String a s +:+ t = String a (s +:+ t).
Proof. reflexivity. Qed.

Lemma app_empty t : EmptyString +:+ t = t.
Proof. reflexivity. Qed.

Lemma letters_app s1 s2 : letters (s1 +:+ s2) = letters s1 ++ letters s2.
Proof.
  induction s1; [done|]. rewrite app_String. simpl. by f_equal.
Qed.

Lemma letters_inj s1 s2 : letters s1 = letters s2 → s1 = s2.
Proof.
  revert s2. induction s1 as [|a s1 IH]; intros [|b s2]; simpl; try done.
  intros [= -> ?]. f_equal. by apply IH.
Qed.

Lemma lstrip_split s :
  ∃ l, s = l +:+ lstrip s ∧ Forall (λ c, isspace c = true) (letters l).
Proof.
  induction s as [|a s (l & Hs & Hl)]; simpl.
  - by exists EmptyString.
  - destruct (isspace a) eqn:Ha.
    + exists (String a l). split; [|by constructor].
      rewrite app_String. by f_equal.
    + by exists EmptyString.
Qed.

Lemma rstrip_split s :
  ∃ r, s = rstrip s +:+ r ∧ Forall (λ c, isspace c = true) (letters r).
Proof.
  induction s as [|a s (r & Hs & Hr)]; simpl.
  - by exists EmptyString.
  - destruct (rstrip s) as [|b t] eqn:Ht.
    + destruct (isspace a) eqn:Ha.
      * exists (String a r). rewrite app_empty in Hs |- *. subst s.
        split; [done | by constructor].
      * exists r. rewrite app_empty in Hs. rewrite app_String, app_empty.
        by subst s.
    + exists r. split; [|done]. rewrite app_String. by f_equal.
Qed.

Lemma lstrip_head s a t : lstrip s = String a t → isspace a = false.
Proof.
  induction s as [|b s IH]; simpl; [done|].
  destruct (isspace b) eqn:Hb; [done|]. by intros [= <- _].
Qed.

Lemma rstrip_head_stable s a :
  isspace a = false → rstrip (String a s) = String a (rstrip s).
Proof. intros Ha. simpl. rewrite Ha. by destruct (rstrip s). Qed.

Lemma rstrip_last s t a :
  letters (rstrip s) = t ++ [a] → isspace a = false.
Proof.
  revert t. induction s as [|b s IH]; intros t; simpl.
  - by destruct t.
  - destruct (rstrip s) as [|c u] eqn:Hu.
    + destruct (isspace b) eqn:Hb; simpl; [by destruct t|].
      destruct t as [|? [|]]; simpl; [|done..]. by intros [= <-].
    + simpl. destruct t as [|x t]; simpl; [done|].
      intros [= _ H]. by apply (IH t).
Qed.

(** [strip] removes white space at both ends and nothing else. *)
Lemma strip_spec s :
  ∃ l r, s = l +:+ strip s +:+ r
    ∧ Forall (λ c, isspace c = true) (letters l)
    ∧ Forall (λ c, isspace c = true) (letters r)
    ∧ (∀ a t, letters (strip s) = a :: t → isspace a = false)
    ∧ (∀ t a, letters (strip s) = t ++ [a] → isspace a = false).
Proof.
  unfold strip.
  destruct (lstrip_split s) as (l & Hs & Hl).
  destruct (rstrip_split (lstrip s)) as (r & Hr & Hsp).
  exists l, r. split_and!; try done.
  - by rewrite <- Hr.
  - intros a t Hat. destruct (lstrip s) as [|b u] eqn:Hu; [done|].
    pose proof (lstrip_head _ _ _ Hu) as Hb.
    rewrite rstrip_head_stable in Hat by done. simpl in Hat. congruence.
  - intros t a. apply rstrip_last.
Qed.

Lemma contains_app c s1 s2 :
  contains c (s1 +:+ s2) = contains c s1 || contains c s2.
Proof.
  induction s1 as [|a s1 IH]; [done|]. rewrite app_String. simpl.
  by destruct (Ascii.eqb a c).
Qed.

Lemma contains_spaces c l :
  isspace c = false → Forall (λ a, isspace a = true) (letters l) →
  contains c l = false.
Proof.
  intros Hc Hl. apply contains_false. intros Hin.
  rewrite Forall_forall in Hl. specialize (Hl _ Hin). congruence.
Qed.

(** A character that is not white space is in the text iff it is in the
    stripped text; a white-space character of the stripped text is in the
    text. *)
Lemma contains_strip_nonspace c s :
  isspace c = false → contains c (strip s) = contains c s.
Proof.
  intros Hc. destruct (strip_spec s) as (l & r & Hs & Hl & Hr & _).
  rewrite Hs at 2. rewrite !contains_app.
  rewrite (contains_spaces c l), (contains_spaces c r) by done.
  by rewrite orb_false_r.
Qed.

Lemma contains_strip c s : contains c (strip s) = true → contains c s = true.
Proof.
  intros Hc. destruct (strip_spec s) as (l & r & Hs & _).
  rewrite Hs, !contains_app, Hc. by rewrite orb_true_r.
Qed.

(** *** Splitting *)

Lemma join_cons sep t u us :
  join (char sep) (t :: u :: us) = t +:+ String sep (join (char sep) (u :: us)).
Proof. reflexivity. Qed.

Lemma split_cons sep a s :
  split sep (String a s) =
    if Ascii.eqb a sep then EmptyString :: split sep s
    else match split sep s with
         | [] => [String a EmptyString]
         | t :: ts => String a t :: ts
         end.
Proof. reflexivity. Qed.

Lemma split_nonempty sep s : split sep s ≠ [].
Proof.
  destruct s as [|a s]; [done|]. rewrite split_cons.
  destruct (Ascii.eqb a sep); [done|]. by destruct (split sep s).
Qed.

Lemma split_cut sep s : cut_at sep s (split sep s).
Proof.
  split; [apply split_nonempty|].
  induction s as [|a s [IHj IHf]].
  - split; [done|]. repeat constructor. by intros ?%elem_of_nil.
  - rewrite split_cons. pose proof (split_nonempty sep s) as Hne.
    destruct (Ascii.eqb_spec a sep) as [->|Hne'].
    + destruct (split sep s) as [|u us] eqn:Hu; [done|]. split.
      * rewrite join_cons, app_empty. by f_equal.
      * constructor; [by intros ?%elem_of_nil | done].
    + destruct (split sep s) as [|u us] eqn:Hu; [done|].
      apply Forall_cons in IHf as [Hu' Hus]. split.
      * destruct us as [|v vs].
        -- simpl in *. by f_equal.
        -- rewrite join_cons in *. rewrite app_String. by f_equal.
      * constructor; [|done]. simpl. rewrite elem_of_cons. naive_solver.
Qed.

Lemma split_no_sep sep p : sep ∉ letters p → split sep p = [p].
Proof.
  induction p as [|a p IH]; [done|]. simpl letters. rewrite not_elem_of_cons.
  intros [Hne Hp]. rewrite split_cons, (IH Hp).
  destruct (Ascii.eqb_spec a sep); [congruence | done].
Qed.

Lemma split_app sep p s :
  sep ∉ letters p →
  split sep (p +:+ String sep s) = p :: split sep s.
Proof.
  induction p as [|a p IH].
  - intros _. rewrite app_empty, split_cons. by rewrite Ascii.eqb_refl.
  - simpl letters. rewrite not_elem_of_cons. intros [Hne Hp].
    rewrite app_String, split_cons, (IH Hp).
    destruct (Ascii.eqb_spec a sep); [congruence | done].
Qed.

(** The cut is unique: [split] is the only list of pieces. *)
Lemma cut_at_unique sep t l : cut_at sep t l → l = split sep t.
Proof.
  intros (Hne & <- & Hf). induction l as [|p [|q l] IH]; [done | |].
  - apply Forall_cons in Hf as [Hp _]. simpl. by rewrite split_no_sep.
  - apply Forall_cons in Hf as [Hp Hf]. rewrite join_cons.
    rewrite split_app by done. f_equal. by apply IH.
Qed.

(** *** Cleaning loop *)

Lemma upper_empty s : upper s = EmptyString ↔ s = EmptyString.
Proof. by destruct s. Qed.

Lemma all_upper_base s :
  all in_ACGT (upper s) = true ↔ Forall is_base_any_case (letters s).
Proof.
  rewrite all_Forall, letters_upper, Forall_fmap. apply Forall_iff. intros c.
  simpl. by rewrite upper_char_base, any_case_contains.
Qed.

Lemma clean_step_accepted acc tok :
  clean_step acc tok = if decide (accepted tok) then acc ++ [cleaned tok] else acc.
Proof.
  unfold clean_step, accepted, cleaned.
  destruct (truthy (upper (strip tok))) eqn:Ht; simpl.
  - apply truthy_ne in Ht. rewrite upper_empty in Ht.
    destruct (all in_ACGT (upper (strip tok))) eqn:Ha.
    + apply all_upper_base in Ha. by rewrite decide_True.
    + rewrite decide_False; [done|]. intros [_ Hf%all_upper_base]. congruence.
  - rewrite decide_False; [done|]. intros [Hne _].
    apply Hne, upper_empty. by destruct (upper (strip tok)).
Qed.

Lemma foldl_clean_step acc l :
  foldl clean_step acc l = acc ++ (cleaned <$> filter accepted l).
Proof.
  revert acc. induction l as [|tok l IH]; intros acc; simpl.
  - by rewrite app_nil_r.
  - rewrite IH, clean_step_accepted, filter_cons.
    destruct (decide (accepted tok)); [|done].
    by rewrite fmap_cons, <- app_assoc.
Qed.

Lemma cleaned_sequence tok :
  accepted tok →
  cleaned tok ≠ EmptyString ∧ is_sequence (cleaned tok)
  ∧ upper (cleaned tok) = cleaned tok.
Proof.
  intros [Hne Hf]. unfold cleaned.
  assert (is_sequence (upper (strip tok))) as Hseq.
  { unfold is_sequence. apply all_upper_base in Hf.
    rewrite all_Forall in Hf. eapply Forall_impl; [exact Hf|].
    intros c. apply in_ACGT_base. }
  split_and!; [by rewrite upper_empty | done | by apply upper_fixed].
Qed.

End PyStrFacts.

(** * Parser *)

Section Parser.
Import PyStr PyStrFacts.

Lemma split_candidates_cases t :
  (nl ∈ letters t → split_candidates t = split nl t)
  ∧ (nl ∉ letters t → comma ∈ letters t → split_candidates t = split comma t)
  ∧ (nl ∉ letters t → comma ∉ letters t → tab ∈ letters t →
       split_candidates t = split tab t)
  ∧ (nl ∉ letters t → comma ∉ letters t → tab ∉ letters t →
       split_candidates t = [t]).
Proof.
  unfold split_candidates. split_and!.
  - intros H%contains_elem. by rewrite H.
  - intros H1%contains_false H2%contains_elem. by rewrite H1, H2.
  - intros H1%contains_false H2%contains_false H3%contains_elem.
    by rewrite H1, H2, H3.
  - intros H1%contains_false H2%contains_false H3%contains_false.
    by rewrite H1, H2, H3.
Qed.

(** Stripping cannot hide a comma, and what it hides of the newlines and tabs
    stood at the ends of the text. *)
Lemma separators_after_strip input_text :
  (comma ∈ letters (strip input_text) ↔ comma ∈ letters input_text)
  ∧ (nl ∈ letters (strip input_text) → nl ∈ letters input_text)
  ∧ (tab ∈ letters (strip input_text) → tab ∈ letters input_text).
Proof.
  rewrite <- !contains_elem. split_and!.
  - by rewrite contains_strip_nonspace.
  - apply contains_strip.
  - apply contains_strip.
Qed.

(** C3, as amended. For every input string, parse chooses exactly one
    separator by priority over the stripped text (the input without its
    leading and trailing white space, newlines and tabs included): if the
    stripped text contains a newline, its pieces between newlines are the
    candidates; else if it contains a comma, its pieces between commas;
    else if it contains a tab, its pieces between tabs; else the stripped
    text is the single candidate. A text whose stripped form contains both
    newlines and commas is cut only at newlines. *)
Theorem parse_separator_priority (input_text : string) :
  separator_priority strip input_text.
Proof.
  unfold separator_priority, raw_indexes.
  destruct (split_candidates_cases (strip input_text)) as (H1 & H2 & H3 & H4).
  split_and!.
  - intros H. rewrite H1 by done. apply split_cut.
  - intros Hn H. rewrite H2 by done. apply split_cut.
  - intros Hn Hc H. rewrite H3 by done. apply split_cut.
  - done.
Qed.

(** C3, as stated, fails: the text [A,C] followed by a newline contains a
    newline and a comma, and it is cut at the comma, because the newline is
    stripped before the separators are looked for. *)
Lemma parse_separator_raw_text_counterexample :
  let input_text := "A,C" +:+ char nl in
  nl ∈ letters input_text ∧ comma ∈ letters input_text
  ∧ raw_indexes input_text = ["A"; "C"]
  ∧ parse_indexes input_text = ["A"; "C"]
  ∧ split nl (strip input_text) = ["A,C"]
  ∧ ¬ separator_priority (λ text, text) input_text.
Proof.
  simpl. split_and!; try done.
  - vm_compute. set_solver.
  - vm_compute. set_solver.
  - intros [H _]. destruct H as (_ & Hj & _).
    + vm_compute. set_solver.
    + vm_compute in Hj. discriminate Hj.
Qed.

Lemma parse_indexes_filter input_text :
  parse_indexes input_text = cleaned <$> filter accepted (raw_indexes input_text).
Proof. unfold parse_indexes. by rewrite foldl_clean_step. Qed.

Lemma parse_indexes_sequences input_text :
  Forall is_sequence (parse_indexes input_text).
Proof.
  rewrite parse_indexes_filter. apply Forall_fmap, Forall_forall.
  intros tok [Hacc _]%list_elem_of_filter. simpl.
  by destruct (cleaned_sequence tok Hacc) as (? & ? & ?).
Qed.

(** C9. Every token of parse's output is not empty, is upper case and is
    made of A, C, G and T only; the output is the accepted candidates, in
    their order in the input, each stripped and put in upper case, so that a
    candidate with any other character leaves no trace. The parser is a total
    function: nothing in it raises. *)
Theorem parse_indexes_tokens (input_text : string) :
  parse_indexes input_text = cleaned <$> filter accepted (raw_indexes input_text)
  ∧ parse_indexes input_text `sublist_of` (cleaned <$> raw_indexes input_text)
  ∧ Forall (λ tok, tok ≠ EmptyString ∧ upper tok = tok ∧ is_sequence tok)
      (parse_indexes input_text).
Proof.
  split_and!.
  - apply parse_indexes_filter.
  - rewrite parse_indexes_filter. apply fmap_sublist, sublist_filter.
  - rewrite parse_indexes_filter. apply Forall_fmap, Forall_forall.
    intros tok [Hacc _]%list_elem_of_filter. simpl.
    by destruct (cleaned_sequence tok Hacc) as (? & ? & ?).
Qed.

End Parser.

(** * Channel model and position analyzer *)

Section Position.
Import PyStr PyStrFacts.

Lemma bind_Ok {A B} (m : result A) (f : A → result B) (b : B) :
  m ≫= f = Ok b ↔ ∃ a, m = Ok a ∧ f a = Ok b.
Proof.
  destruct m as [a|e]; simpl.
  - split; [by exists a | by intros (? & [= <-] & ?)].
  - split; [done | by intros (? & ? & ?)].
Qed.

Lemma colors_lookup b :
  XLEAP_COLORS !! b =
    if decide (b = "A") then Some (Profile true false "Blue only")
    else if decide (b = "C") then Some (Profile true true "Both (dual)")
    else if decide (b = "G") then Some (Profile false false "Dark (no signal)")
    else if decide (b = "T") then Some (Profile false true "Green only")
    else None.
Proof.
  unfold XLEAP_COLORS. simpl. rewrite !lookup_insert, lookup_empty.
  repeat case_decide; congruence.
Qed.

Lemma colors_defined b : is_Some (XLEAP_COLORS !! b) ↔ is_base_str b.
Proof.
  rewrite colors_lookup. unfold is_base_str.
  repeat case_decide; split; intros Hb; eauto.
  - by destruct Hb as [? [=]].
  - naive_solver.
Qed.

Lemma emits_blue b : emits blue b ↔ b = "A" ∨ b = "C".
Proof.
  unfold emits. rewrite colors_lookup.
  repeat case_decide; subst; split; try naive_solver.
Qed.

Lemma emits_green b : emits green b ↔ b = "C" ∨ b = "T".
Proof.
  unfold emits. rewrite colors_lookup.
  repeat case_decide; subst; split; try naive_solver.
Qed.

Lemma colors_getitem_Ok b p :
  colors_getitem b = Ok p ↔ XLEAP_COLORS !! b = Some p.
Proof.
  unfold colors_getitem. destruct (XLEAP_COLORS !! b); naive_solver.
Qed.

Lemma colors_getitem_base b : is_base_str b → ∃ p, colors_getitem b = Ok p.
Proof.
  intros [p Hp]%colors_defined. exists p. by apply colors_getitem_Ok.
Qed.

(** [any] over the channel of the bases, whenever it returns. *)
Lemma any_channel_Ok ch bases v :
  any_channel ch bases = Ok v → (v = true ↔ Exists (emits ch) bases).
Proof.
  revert v. induction bases as [|b bases IH]; intros v; simpl.
  - intros [= <-]. split; [done | by intros ?%Exists_nil].
  - intros (p & Hp%colors_getitem_Ok & Hv)%bind_Ok. rewrite Exists_cons.
    destruct (ch p) eqn:Hch.
    + injection Hv as <-. split; [|done]. intros _. left. by exists p.
    + rewrite (IH v Hv). split; [by right|].
      intros [(q & Hq & Hchq)|H]; [congruence | done].
Qed.

Lemma any_channel_total ch bases :
  Forall is_base_str bases → ∃ v, any_channel ch bases = Ok v.
Proof.
  induction 1 as [|b bases Hb _ [v IH]]; simpl; [by eexists|].
  destruct (colors_getitem_base b Hb) as [p ->]. simpl.
  destruct (ch p); by eexists.
Qed.

(** The sum that counts a channel, whenever it returns. *)
Lemma count_channel_Ok ch bases n :
  count_channel ch bases = Ok n → (0 < n ↔ Exists (emits ch) bases).
Proof.
  revert n. induction bases as [|b bases IH]; intros n; simpl.
  - intros [= <-]. split; [lia | by intros ?%Exists_nil].
  - intros (p & Hp%colors_getitem_Ok & (m & Hm & Hn)%bind_Ok)%bind_Ok.
    rewrite Exists_cons, <- (IH m Hm). injection Hn as <-.
    destruct (ch p) eqn:Hch.
    + split; [|lia]. intros _. left. by exists p.
    + split; [by right|]. intros [(q & Hq & Hchq)|H]; [congruence | done].
Qed.

Lemma count_channel_total ch bases :
  Forall is_base_str bases → ∃ n, count_channel ch bases = Ok n.
Proof.
  induction 1 as [|b bases Hb _ [n IH]]; simpl; [by eexists|].
  destruct (colors_getitem_base b Hb) as [p ->]. simpl. rewrite IH. simpl.
  by eexists.
Qed.

(** What the analyzer returns, whenever it returns. *)
Lemma check_position_balance_Ok pos l r :
  check_position_balance pos l = Ok r →
  (has_blue r = true ↔ Exists (emits blue) l)
  ∧ (has_green r = true ↔ Exists (emits green) l)
  ∧ is_balanced r = has_blue r && has_green r
  ∧ position r = (pos + 1)%Z
  ∧ bases r = l
  ∧ unique_bases r = size (list_to_set l : gset string)
  ∧ recommendation r =
      recommendation_policy pos (has_blue r) (has_green r) (unique_bases r).
Proof.
  unfold check_position_balance.
  intros (vb & Hb & (vg & Hg & [= <-])%bind_Ok)%bind_Ok. simpl.
  split_and!; try done.
  - by apply any_channel_Ok.
  - by apply any_channel_Ok.
  - unfold recommendation_policy.
    destruct vb, vg; simpl; try done.
    destruct (size _ <? 2) eqn:Hlt.
    + apply Nat.ltb_lt in Hlt. by rewrite bool_decide_eq_true_2.
    + apply Nat.ltb_ge in Hlt. rewrite bool_decide_eq_false_2; [done | lia].
Qed.

Lemma check_position_balance_total position bases :
  Forall is_base_str bases → ∃ r, check_position_balance position bases = Ok r.
Proof.
  intros Hb. unfold check_position_balance.
  destruct (any_channel_total blue bases Hb) as [vb ->].
  destruct (any_channel_total green bases Hb) as [vg ->]. simpl. by eexists.
Qed.

(** C2. For a position analyzed over bases drawn from A, C, G and T (the
    empty list included), the analyzer returns a result in which has_blue is
    true iff a base is A or C, which are the bases whose blue channel is true
    in the channel table, has_green is true iff a base is C or T, likewise,
    and is_balanced is has_blue and has_green. *)
Theorem check_position_balance_channels (position : Z) (bases : list string) :
  Forall is_base_str bases →
  ∃ r, check_position_balance position bases = Ok r
    ∧ (has_blue r = true ↔ ∃ b, b ∈ bases ∧ (b = "A" ∨ b = "C"))
    ∧ (has_green r = true ↔ ∃ b, b ∈ bases ∧ (b = "C" ∨ b = "T"))
    ∧ (∀ b, b = "A" ∨ b = "C" ↔ emits blue b)
    ∧ (∀ b, b = "C" ∨ b = "T" ↔ emits green b)
    ∧ is_balanced r = has_blue r && has_green r.
Proof.
  intros Hb. destruct (check_position_balance_total position bases Hb) as [r Hr].
  exists r. split; [done|].
  destruct (check_position_balance_Ok _ _ _ Hr) as (Hblue & Hgreen & Hbal & _).
  split_and!; try done.
  - rewrite Hblue, Exists_exists. by setoid_rewrite emits_blue.
  - rewrite Hgreen, Exists_exists. by setoid_rewrite emits_green.
  - intros b. by rewrite emits_blue.
  - intros b. by rewrite emits_green.
Qed.

Lemma check_position_balance_channels_witness :
  Forall is_base_str ["A"; "T"]
  ∧ ∃ r, check_position_balance 0 ["A"; "T"] = Ok r
    ∧ (has_blue r = true ↔ ∃ b, b ∈ ["A"; "T"] ∧ (b = "A" ∨ b = "C"))
    ∧ (has_green r = true ↔ ∃ b, b ∈ ["A"; "T"] ∧ (b = "C" ∨ b = "T"))
    ∧ (∀ b, b = "A" ∨ b = "C" ↔ emits blue b)
    ∧ (∀ b, b = "C" ∨ b = "T" ↔ emits green b)
    ∧ is_balanced r = has_blue r && has_green r.
Proof.
  assert (Forall is_base_str ["A"; "T"]) as Hb by solve_bases.
  split; [exact Hb | exact (check_position_balance_channels 0 ["A"; "T"] Hb)].
Defined.

Lemma string_app_inv_head s t1 t2 : s +:+ t1 = s +:+ t2 → t1 = t2.
Proof.
  induction s as [|a s IH]; [done|]. rewrite !app_String. intros [= H]. auto.
Qed.

Lemma msg_low_diversity_other position n :
  msg_low_diversity position n ≠ msg_dark position
  ∧ msg_low_diversity position n ≠ msg_no_blue position
  ∧ msg_low_diversity position n ≠ msg_no_green position.
Proof.
  unfold msg_low_diversity, msg_dark, msg_no_blue, msg_no_green.
  split_and!; intros H;
    do 2 apply string_app_inv_head in H; discriminate H.
Qed.

Lemma msgs_distinct pos n :
  msg_dark pos ≠ msg_no_blue pos ∧ msg_dark pos ≠ msg_no_green pos
  ∧ msg_no_blue pos ≠ msg_no_green pos
  ∧ msg_low_diversity pos n ≠ msg_dark pos
  ∧ msg_low_diversity pos n ≠ msg_no_blue pos
  ∧ msg_low_diversity pos n ≠ msg_no_green pos.
Proof.
  unfold msg_low_diversity, msg_dark, msg_no_blue, msg_no_green.
  split_and!; intros H;
    do 2 apply string_app_inv_head in H; discriminate H.
Qed.

(** The policy, read backwards: which flags give which message. *)
Lemma policy_cases pos hb hg u :
  (recommendation_policy pos hb hg u = Some (msg_dark pos) ↔
     hb = false ∧ hg = false)
  ∧ (recommendation_policy pos hb hg u = Some (msg_no_blue pos) ↔
     hb = false ∧ hg = true)
  ∧ (recommendation_policy pos hb hg u = Some (msg_no_green pos) ↔
     hb = true ∧ hg = false)
  ∧ (∀ n, recommendation_policy pos hb hg u = Some (msg_low_diversity pos n) →
     hb = true ∧ hg = true ∧ u < 2)
  ∧ (hb = true → hg = true → u < 2 →
     recommendation_policy pos hb hg u = Some (msg_low_diversity pos u))
  ∧ (recommendation_policy pos hb hg u = None ↔
     hb = true ∧ hg = true ∧ 2 ≤ u).
Proof.
  destruct (msgs_distinct pos u) as (D1 & D2 & D3 & D4 & D5 & D6).
  unfold recommendation_policy.
  destruct hb, hg; simpl; try case_bool_decide; split_and!;
    try (intros n; destruct (msgs_distinct pos n) as (_ & _ & _ & E4 & E5 & E6));
    try (split; [intros Heq | intros (? & ?)]); try intros Heq;
    try done; try congruence; try lia; try (split_and!; (done || lia)).
  all: intros; lia.
Qed.


(** The flags of a column of bases, read on the column. *)
Lemma bases_classes (l : list string) :
  Forall is_base_str l →
  let EB := Exists (λ b, b = "A" ∨ b = "C") l in
  let EG := Exists (λ b, b = "C" ∨ b = "T") l in
  (¬ EB ∧ ¬ EG ↔ Forall (λ b, b = "G") l)
  ∧ (¬ EB ∧ EG ↔ "T" ∈ l ∧ Forall (λ b, b = "G" ∨ b = "T") l)
  ∧ (EB ∧ ¬ EG ↔ "A" ∈ l ∧ Forall (λ b, b = "G" ∨ b = "A") l).
Proof.
  intros Hall EB EG. subst EB EG. rewrite !Forall_forall in *. rewrite !Exists_exists.
  unfold is_base_str in Hall.
  split_and!; split.
  - intros [HB HG] b Hb. destruct (Hall b Hb) as [-> | [-> | [-> | ->]]]; try done.
    + destruct HB; eauto. + destruct HB; eauto. + destruct HG; eauto.
  - intros HG. split; intros (b & Hb & Hc); specialize (HG b Hb); subst b; by destruct Hc.
  - intros [HB (b & Hb & Hc)]. split.
    + destruct Hc as [-> | ->]; [|done]. destruct HB; eauto.
    + intros b' Hb'. destruct (Hall b' Hb') as [-> | [-> | [-> | ->]]]; auto; destruct HB; eauto.
  - intros [HT HG]. split; [|eauto]. intros (b & Hb & Hc). specialize (HG b Hb). destruct HG as [-> | ->]; by destruct Hc.
  - intros [(b & Hb & Hc) HG]. split.
    + destruct Hc as [-> | ->]; [done|]. destruct HG; eauto.
    + intros b' Hb'. destruct (Hall b' Hb') as [-> | [-> | [-> | ->]]]; auto; destruct HG; eauto.
  - intros [HA HG]. split; [eauto|]. intros (b & Hb & Hc). specialize (HG b Hb). destruct HG as [-> | ->]; by destruct Hc.
Qed.

Lemma set_size_small (l : list string) :
  size (list_to_set l : gset string) < 2 →
  ∀ x y, x ∈ l → y ∈ l → x = y.
Proof.
  intros Hsz x y Hx Hy. destruct (decide (x = y)) as [|Hne]; [done|].
  assert ({[ x; y ]} ⊆ (list_to_set l : gset string)) as Hsub.
  { intros z. rewrite elem_of_union, !elem_of_singleton, elem_of_list_to_set.
    by intros [-> | ->]. }
  apply subseteq_size in Hsub.
  rewrite size_union, !size_singleton in Hsub; [lia | set_solver].
Qed.

Lemma set_size_constant (l : list string) c :
  l ≠ [] → Forall (λ b, b = c) l → size (list_to_set l : gset string) = 1.
Proof.
  intros Hne Hall. rewrite Forall_forall in Hall.
  assert ((list_to_set l : gset string) = {[ c ]}) as ->;
    [|apply size_singleton].
  apply set_eq. intros z. rewrite elem_of_list_to_set, elem_of_singleton.
  split; [apply Hall|]. intros ->. destruct l as [|b l]; [done|].
  rewrite <- (Hall b) at 1; apply list_elem_of_here.
Qed.

(** The recommendations, read on the bases. *)
Lemma recommended_on_bases (pos : Z) (l : list string) :
  Forall is_base_str l →
  ∃ r, check_position_balance pos l = Ok r
    ∧ (recommendation r = Some (msg_dark pos) ↔ Forall (λ b, b = "G") l)
    ∧ (recommendation r = Some (msg_no_blue pos) ↔
         "T" ∈ l ∧ Forall (λ b, b = "G" ∨ b = "T") l)
    ∧ (recommendation r = Some (msg_no_green pos) ↔
         "A" ∈ l ∧ Forall (λ b, b = "G" ∨ b = "A") l)
    ∧ (recommendation r = Some (msg_low_diversity pos 1) ↔
         l ≠ [] ∧ Forall (λ b, b = "C") l)
    ∧ (recommendation r = None ↔
         is_balanced r = true ∧ 2 ≤ unique_bases r).
Proof.
  intros Hall. destruct (check_position_balance_total pos l Hall) as [r Hr].
  exists r. split; [done|].
  destruct (check_position_balance_Ok _ _ _ Hr)
    as (Hb & Hg & Hbal & _ & _ & Hu & Hrec).
  rewrite Exists_exists in Hb, Hg.
  setoid_rewrite emits_blue in Hb. setoid_rewrite emits_green in Hg.
  rewrite <- Exists_exists in Hb, Hg.
  destruct (bases_classes l Hall) as (C1 & C2 & C3).
  rewrite <- Hb, <- Hg in C1, C2, C3.
  destruct (policy_cases pos (has_blue r) (has_green r) (unique_bases r))
    as (P1 & P2 & P3 & P4 & P5 & P6).
  rewrite Hrec, Hbal. split_and!.
  - rewrite P1, <- C1. destruct (has_blue r), (has_green r); naive_solver.
  - rewrite P2, <- C2. destruct (has_blue r), (has_green r); naive_solver.
  - rewrite P3, <- C3. destruct (has_blue r), (has_green r); naive_solver.
  - split.
    + intros (Hhb & Hhg & Hlt)%P4. rewrite Hu in Hlt.
      apply Hb, Exists_exists in Hhb as (b & Hbl & Hbc).
      apply Hg, Exists_exists in Hhg as (g & Hgl & Hgc).
      split; [by intros ->; apply elem_of_nil in Hbl|].
      assert (b = "C") as ->.
      { pose proof (set_size_small l Hlt b g Hbl Hgl) as ->.
        destruct Hbc as [-> | ->], Hgc as [? | ?]; done. }
      apply Forall_forall. intros x Hx. by apply (set_size_small l Hlt).
    + intros [Hne HC].
      assert (unique_bases r = 1) as Hu1 by (rewrite Hu; by eapply set_size_constant).
      assert ("C" ∈ l) as HCl.
      { destruct l as [|b l]; [done|]. apply Forall_cons in HC as [-> _].
        apply list_elem_of_here. }
      rewrite <- Hu1. apply P5; [| | lia].
      * apply Hb, Exists_exists. eauto.
      * apply Hg, Exists_exists. eauto.
  - rewrite P6, andb_true_iff. naive_solver.
Qed.

Lemma size_remove_dups (l : list string) :
  size (list_to_set l : gset string) = length (remove_dups l).
Proof.
  rewrite <- (size_list_to_set (C:=gset string) (remove_dups l))
    by apply NoDup_remove_dups.
  f_equal. apply set_eq. intros x.
  by rewrite !elem_of_list_to_set, elem_of_remove_dups.
Qed.

(** C5. For every analyzed position at most one recommendation is produced,
    by the priority of the rules: without any channel the all-G dark message;
    else without blue the No blue signal message; else without green the No
    green signal message; else, when fewer than two distinct bases are
    present, the Low diversity message; otherwise none. The channels are
    those of the bases (blue for A and C, green for C and T) and the count is
    that of the distinct bases, so that the dark message is given iff every
    base is G, the No blue message iff a T is present among G and T only,
    the No green message iff an A is present among G and A only, and the Low
    diversity message iff the bases are one or more C. The Low diversity
    message is produced only for a balanced position, and an unbalanced
    position gets one of the three signal messages. *)
Theorem check_position_balance_recommendation
    (position : Z) (bases : list string) :
  Forall is_base_str bases →
  ∃ r, check_position_balance position bases = Ok r
    ∧ recommendation r =
        recommendation_policy position (has_blue r) (has_green r)
          (unique_bases r)
    ∧ (∀ n, recommendation r = Some (msg_low_diversity position n) →
         is_balanced r = true ∧ unique_bases r < 2)
    ∧ (is_balanced r = false →
         recommendation r = Some (msg_dark position)
         ∨ recommendation r = Some (msg_no_blue position)
         ∨ recommendation r = Some (msg_no_green position))
    ∧ (has_blue r = true ↔ ∃ b, b ∈ bases ∧ (b = "A" ∨ b = "C"))
    ∧ (has_green r = true ↔ ∃ b, b ∈ bases ∧ (b = "C" ∨ b = "T"))
    ∧ is_balanced r = has_blue r && has_green r
    ∧ unique_bases r = length (remove_dups bases)
    ∧ (recommendation r = Some (msg_dark position) ↔
         Forall (λ b, b = "G") bases)
    ∧ (recommendation r = Some (msg_no_blue position) ↔
         "T" ∈ bases ∧ Forall (λ b, b = "G" ∨ b = "T") bases)
    ∧ (recommendation r = Some (msg_no_green position) ↔
         "A" ∈ bases ∧ Forall (λ b, b = "G" ∨ b = "A") bases)
    ∧ (recommendation r = Some (msg_low_diversity position 1) ↔
         bases ≠ [] ∧ Forall (λ b, b = "C") bases)
    ∧ (recommendation r = None ↔
         is_balanced r = true ∧ 2 ≤ unique_bases r).
Proof.
  intros Hb.
  destruct (recommended_on_bases position bases Hb)
    as (r & Hr & M1 & M2 & M3 & M4 & M5).
  exists r. split; [done|].
  destruct (check_position_balance_Ok _ _ _ Hr)
    as (Hblue & Hgreen & Hbal & _ & _ & Hu & Hrec).
  split; [done|].
  assert ((∀ n, recommendation r = Some (msg_low_diversity position n) →
             is_balanced r = true ∧ unique_bases r < 2)
          ∧ (is_balanced r = false →
             recommendation r = Some (msg_dark position)
             ∨ recommendation r = Some (msg_no_blue position)
             ∨ recommendation r = Some (msg_no_green position))) as [L1 L2].
  { rewrite Hrec, Hbal. unfold recommendation_policy. split.
    - intros n.
      destruct (msg_low_diversity_other position n) as (H1 & H2 & H3).
      destruct (has_blue r), (has_green r); simpl;
        [case_bool_decide; [by intros _ | done] | intros Heq; congruence..].
    - destruct (has_blue r), (has_green r); simpl; auto. done. }
  split_and!; try done.
  - rewrite Hblue, Exists_exists. by setoid_rewrite emits_blue.
  - rewrite Hgreen, Exists_exists. by setoid_rewrite emits_green.
  - rewrite Hu. apply size_remove_dups.
Qed.

Lemma check_position_balance_recommendation_witness :
  Forall is_base_str ["C"; "C"; "C"]
  ∧ ∃ r, check_position_balance 0 ["C"; "C"; "C"] = Ok r
    ∧ recommendation r =
        recommendation_policy 0 (has_blue r) (has_green r) (unique_bases r)
    ∧ (∀ n, recommendation r = Some (msg_low_diversity 0 n) →
         is_balanced r = true ∧ unique_bases r < 2)
    ∧ (is_balanced r = false →
         recommendation r = Some (msg_dark 0)
         ∨ recommendation r = Some (msg_no_blue 0)
         ∨ recommendation r = Some (msg_no_green 0))
    ∧ (has_blue r = true ↔ ∃ b, b ∈ ["C"; "C"; "C"] ∧ (b = "A" ∨ b = "C"))
    ∧ (has_green r = true ↔ ∃ b, b ∈ ["C"; "C"; "C"] ∧ (b = "C" ∨ b = "T"))
    ∧ is_balanced r = has_blue r && has_green r
    ∧ unique_bases r = length (remove_dups ["C"; "C"; "C"])
    ∧ (recommendation r = Some (msg_dark 0) ↔
         Forall (λ b, b = "G") ["C"; "C"; "C"])
    ∧ (recommendation r = Some (msg_no_blue 0) ↔
         "T" ∈ ["C"; "C"; "C"]
         ∧ Forall (λ b, b = "G" ∨ b = "T") ["C"; "C"; "C"])
    ∧ (recommendation r = Some (msg_no_green 0) ↔
         "A" ∈ ["C"; "C"; "C"]
         ∧ Forall (λ b, b = "G" ∨ b = "A") ["C"; "C"; "C"])
    ∧ (recommendation r = Some (msg_low_diversity 0 1) ↔
         ["C"; "C"; "C"] ≠ [] ∧ Forall (λ b, b = "C") ["C"; "C"; "C"])
    ∧ (recommendation r = None ↔
         is_balanced r = true ∧ 2 ≤ unique_bases r).
Proof.
  assert (Forall is_base_str ["C"; "C"; "C"]) as Hb by solve_bases.
  split; [exact Hb|].
  exact (check_position_balance_recommendation 0 ["C"; "C"; "C"] Hb).
Defined.

Example test_unbalanced_all_g :
  recommendation <$> check_position_balance 0 ["G"; "G"; "G"]
  = Ok (Some "Position 1: All bases are G (dark). Add indexes with A, C, or T.").
Proof. reflexivity. Qed.

Example test_low_diversity :
  recommendation <$> check_position_balance 4 ["C"; "C"]
  = Ok (Some "Position 5: Low diversity (1 unique base). Consider more varied indexes.").
Proof. vm_compute. reflexivity. Qed.

End Position.

(** * Aggregate validator *)

Section Loop.
Import PyStr PyStrFacts.

(** *** The set of lengths *)

Lemma lengths_of_equal first rest :
  equal_length (first :: rest) →
  lengths_of (first :: rest) = {[ String.length first ]}.
Proof.
  intros Heq. unfold lengths_of. apply set_eq. intros n.
  rewrite elem_of_list_to_set, list_elem_of_fmap, elem_of_singleton. split.
  - intros (s & -> & Hs). apply Heq; [done | apply list_elem_of_here].
  - intros ->. exists first. split; [done | apply list_elem_of_here].
Qed.

Lemma lengths_of_mixed indexes : mixed_lengths indexes → 1 < size (lengths_of indexes).
Proof.
  intros (s1 & s2 & H1 & H2 & Hne).
  assert ({[ String.length s1; String.length s2 ]} ⊆ lengths_of indexes) as Hsub.
  { unfold lengths_of. intros n.
    rewrite elem_of_union, !elem_of_singleton, elem_of_list_to_set,
      list_elem_of_fmap.
    intros [-> | ->]; eauto. }
  apply subseteq_size in Hsub.
  rewrite size_union, !size_singleton in Hsub; [lia | set_solver].
Qed.

Lemma equal_or_mixed indexes : equal_length indexes ∨ mixed_lengths indexes.
Proof.
  destruct indexes as [|first rest]; [left; by intros ? ? ?%elem_of_nil|].
  destruct (decide (Forall (λ s, String.length s = String.length first)
                      (first :: rest))) as [Hall|Hex].
  - left. rewrite Forall_forall in Hall. intros s1 s2 H1 H2.
    by rewrite (Hall s1), (Hall s2).
  - right. apply not_Forall_Exists in Hex; [|apply _].
    apply Exists_exists in Hex as (s & Hs & Hne).
    exists s, first. split_and!; [done | apply list_elem_of_here | done].
Qed.

Lemma mixed_not_equal indexes : mixed_lengths indexes ↔ ¬ equal_length indexes.
Proof.
  split.
  - intros (s1 & s2 & H1 & H2 & Hne) Heq. by apply Hne, Heq.
  - intros Hne. by destruct (equal_or_mixed indexes).
Qed.

(** The test of the validator on the set of lengths. *)
Lemma lengths_test_mixed indexes :
  mixed_lengths indexes → (1 <? size (lengths_of indexes)) = true.
Proof. intros Hmix. by apply Nat.ltb_lt, lengths_of_mixed. Qed.

Lemma lengths_test_equal indexes :
  equal_length indexes → (1 <? size (lengths_of indexes)) = false.
Proof.
  intros Heq. destruct indexes as [|first rest]; [done|].
  by rewrite lengths_of_equal, size_singleton.
Qed.

(** *** Columns *)

Lemma length_chars s : length (chars s) = String.length s.
Proof. induction s; simpl; by f_equal. Qed.

Lemma chars_letters s : chars s = char <$> letters s.
Proof. induction s; simpl; by f_equal. Qed.

Lemma str_getitem_Ok s i b :
  str_getitem s i = Ok b ↔ ∃ c, letters s !! i = Some c ∧ b = char c.
Proof.
  unfold str_getitem. rewrite chars_letters, list_lookup_fmap.
  destruct (letters s !! i) as [c|]; simpl; naive_solver.
Qed.

Lemma bases_at_cons idx indexes pos :
  bases_at (idx :: indexes) pos =
    b ← str_getitem idx pos; l ← bases_at indexes pos; Ok (b :: l).
Proof. reflexivity. Qed.

(** The column, whenever it can be read: one base of each index, in the
    order of the indexes. *)
Lemma bases_at_Ok indexes pos l :
  bases_at indexes pos = Ok l ↔
  Forall2 (λ idx b, ∃ c, letters idx !! pos = Some c ∧ b = char c) indexes l.
Proof.
  revert l. induction indexes as [|idx indexes IH]; intros l.
  - split; [intros [= <-]; constructor | by intros ->%Forall2_nil_inv_l].
  - rewrite bases_at_cons. split.
    + intros (b & Hb%str_getitem_Ok & (l' & Hl'%IH & [= <-])%bind_Ok)%bind_Ok.
      by constructor.
    + intros (b & l' & Hb%str_getitem_Ok & Hl'%IH & ->)%Forall2_cons_inv_l.
      by rewrite Hb, Hl'.
Qed.

Lemma bases_at_total indexes pos :
  Forall (λ idx, pos < String.length idx) indexes →
  ∃ l, bases_at indexes pos = Ok l.
Proof.
  induction 1 as [|idx indexes Hlt _ [l IH]]; [by eexists|].
  rewrite bases_at_cons, IH. unfold str_getitem.
  destruct (lookup_lt_is_Some_2 (chars idx) pos) as [b ->];
    [by rewrite length_chars | by eexists].
Qed.

Lemma bases_at_sequences indexes pos l :
  Forall is_sequence indexes → bases_at indexes pos = Ok l →
  Forall is_base_str l.
Proof.
  intros Hseq Hl%bases_at_Ok. revert Hseq.
  induction Hl as [|idx b indexes l (c & Hc & ->) _ IH]; [done|].
  intros [Hidx Hrest]%Forall_cons. constructor; [|by apply IH].
  unfold is_sequence in Hidx. rewrite Forall_forall in Hidx.
  apply list_elem_of_lookup_2 in Hc.
  destruct (Hidx c Hc) as [-> | [-> | [-> | ->]]]; unfold is_base_str; auto 6.
Qed.

(** *** The position loop *)

Lemma recommendation_truthy pos l r s :
  check_position_balance pos l = Ok r → recommendation r = Some s →
  truthy s = true.
Proof.
  intros (_ & _ & _ & _ & _ & _ & Hrec)%check_position_balance_Ok.
  rewrite Hrec. unfold recommendation_policy.
  repeat (case_match; try done); by intros [= <-].
Qed.

Lemma failed_step r acc :
  (if negb (is_balanced r) then acc ++ [position r] else acc)
  = acc ++ (position <$> filter unbalanced [r]).
Proof.
  rewrite filter_cons, filter_nil.
  destruct (decide (unbalanced r)) as [H|H]; unfold unbalanced in H.
  - by rewrite H.
  - apply not_false_is_true in H. rewrite H. simpl. by rewrite app_nil_r.
Qed.

Lemma validate_step_Ok indexes st pos st' :
  validate_step indexes st pos = Ok st' ↔
  ∃ r, analysed indexes pos r
    ∧ st_positions st' = st_positions st ++ [r]
    ∧ st_failed st' = st_failed st ++ (position <$> filter unbalanced [r])
    ∧ st_warnings st' = st_warnings st ++ omap recommendation [r].
Proof.
  unfold validate_step, analysed. split.
  - intros (l & Hl & (r & Hr & [= <-])%bind_Ok)%bind_Ok. exists r. simpl.
    split_and!; [by exists l | done | |].
    + apply failed_step.
    + destruct (recommendation r) as [s|] eqn:Hs; simpl; [|by rewrite app_nil_r].
      by rewrite (recommendation_truthy _ _ _ _ Hr Hs).
  - intros (r & (l & Hl & Hr) & Hp & Hf & Hw). rewrite Hl. simpl. rewrite Hr.
    simpl. f_equal. destruct st' as [p f w]. simpl in *. subst. f_equal.
    + apply failed_step.
    + destruct (recommendation r) as [s|] eqn:Hs; simpl; [|by rewrite app_nil_r].
      by rewrite (recommendation_truthy _ _ _ _ Hr Hs).
Qed.

(** Invariant of the loop: after the positions [l], the three lists have
    grown by the analyses of [l], the numbers of the unbalanced ones and the
    recommendations that are present, all in the order of [l]. *)
Lemma validate_loop_Ok indexes l st st' :
  for_each (validate_step indexes) st l = Ok st' ↔
  ∃ rs, Forall2 (analysed indexes) l rs
    ∧ st_positions st' = st_positions st ++ rs
    ∧ st_failed st' = st_failed st ++ (position <$> filter unbalanced rs)
    ∧ st_warnings st' = st_warnings st ++ omap recommendation rs.
Proof.
  revert st. induction l as [|pos l IH]; intros st; simpl.
  - split.
    + intros [= <-]. exists []. by rewrite !app_nil_r.
    + intros (rs & ->%Forall2_nil_inv_l & Hp & Hf & Hw). simpl in *.
      rewrite !app_nil_r in *. f_equal. destruct st, st'. simpl in *. by subst.
  - rewrite bind_Ok. split.
    + intros (st1 & (r & Hr & Hp1 & Hf1 & Hw1)%validate_step_Ok
                  & (rs & Hrs & Hp & Hf & Hw)%IH).
      exists (r :: rs). split; [by constructor|].
      rewrite Hp, Hf, Hw, Hp1, Hf1, Hw1.
      rewrite (filter_app _ [r] rs), (omap_app _ [r] rs), fmap_app.
      by rewrite <- !app_assoc.
    + intros (rs & (r & rs' & Hr & Hrs' & ->)%Forall2_cons_inv_l & Hp & Hf & Hw).
      exists (LoopState (st_positions st ++ [r])
                (st_failed st ++ (position <$> filter unbalanced [r]))
                (st_warnings st ++ omap recommendation [r])).
      split.
      * apply validate_step_Ok. by exists r.
      * apply IH. exists rs'. split; [done|]. simpl.
        rewrite Hp, Hf, Hw.
        rewrite (filter_app _ [r] rs'), (omap_app _ [r] rs'), fmap_app.
        by rewrite <- !app_assoc.
Qed.

Lemma analysed_total indexes pos :
  Forall is_sequence indexes →
  Forall (λ idx, pos < String.length idx) indexes →
  ∃ r, analysed indexes pos r.
Proof.
  intros Hseq Hlt. destruct (bases_at_total indexes pos Hlt) as [l Hl].
  destruct (check_position_balance_total (Z.of_nat pos) l) as [r Hr];
    [by eapply bases_at_sequences|].
  exists r, l. done.
Qed.

Lemma analysed_all_total indexes l :
  Forall is_sequence indexes →
  Forall (λ pos, Forall (λ idx, pos < String.length idx) indexes) l →
  ∃ rs, Forall2 (analysed indexes) l rs.
Proof.
  intros Hseq. induction 1 as [|pos l Hpos _ [rs IH]]; [by exists []|].
  destruct (analysed_total indexes pos Hseq Hpos) as [r Hr].
  exists (r :: rs). by constructor.
Qed.

End Loop.

Section Validate.
Import PyStr PyStrFacts.

Variable order : gset nat → list nat.

Lemma validate_indexes_cons first rest :
  validate_indexes order (first :: rest) =
    if 1 <? size (lengths_of (first :: rest))
    then Ok (mismatch_result order (lengths_of (first :: rest)))
    else
      st ← for_each (validate_step (first :: rest)) (LoopState [] [] [])
             (seq 0 (String.length first));
      let warnings :=
        if length (first :: rest) <? 2 then msg_single :: st_warnings st
        else st_warnings st in
      let is_valid := length (st_failed st) =? 0 in
      Ok {| is_valid := is_valid;
            total_positions := String.length first;
            positions := st_positions st;
            failed_positions := st_failed st;
            warnings := warnings;
            summary := summary_of is_valid warnings (length (st_failed st))
                         (String.length first) |}.
Proof. reflexivity. Qed.

(** The result on indexes of one length, whenever there is one. *)
Lemma validate_indexes_Ok first rest r :
  equal_length (first :: rest) →
  validate_indexes order (first :: rest) = Ok r →
  Forall2 (analysed (first :: rest)) (seq 0 (String.length first)) (positions r)
  ∧ total_positions r = String.length first
  ∧ failed_positions r = position <$> filter unbalanced (positions r)
  ∧ warnings r =
      (if length (first :: rest) <? 2 then [msg_single] else [])
      ++ omap recommendation (positions r)
  ∧ (is_valid r = true ↔ failed_positions r = []).
Proof.
  intros Heq. rewrite validate_indexes_cons, lengths_test_equal by done.
  intros (st & (rs & Hrs & Hp & Hf & Hw)%validate_loop_Ok & [= <-])%bind_Ok.
  simpl in *. subst rs. rewrite Hf, Hw. split_and!; try done.
  - by destruct rest.
  - rewrite Nat.eqb_eq. apply length_zero_iff_nil.
Qed.

Lemma equal_length_lt first rest pos :
  equal_length (first :: rest) → pos < String.length first →
  Forall (λ idx, pos < String.length idx) (first :: rest).
Proof.
  intros Heq Hlt. apply Forall_forall. intros idx Hidx.
  rewrite (Heq idx first); [done | done | apply list_elem_of_here].
Qed.

Lemma validate_indexes_total indexes :
  equal_length indexes → Forall is_sequence indexes →
  ∃ r, validate_indexes order indexes = Ok r.
Proof.
  intros Heq Hseq. destruct indexes as [|first rest]; [by eexists|].
  rewrite validate_indexes_cons, lengths_test_equal by done.
  destruct (analysed_all_total (first :: rest) (seq 0 (String.length first)))
    as [rs Hrs]; [done | |].
  { apply Forall_forall. intros pos [_ Hpos]%elem_of_seq.
    by apply equal_length_lt. }
  assert (∃ st, for_each (validate_step (first :: rest)) (LoopState [] [] [])
                  (seq 0 (String.length first)) = Ok st) as [st ->].
  { eexists (LoopState _ _ _). apply validate_loop_Ok. exists rs. by simpl. }
  simpl. by eexists.
Qed.

(** *** Position numbers *)

Lemma analysed_numbers indexes l rs :
  Forall2 (analysed indexes) l rs →
  position <$> rs = (λ i, Z.of_nat i + 1)%Z <$> l.
Proof.
  induction 1 as [|pos r l rs (b & _ & Hr) _ IH]; [done|].
  rewrite !fmap_cons, IH. f_equal.
  by destruct (check_position_balance_Ok _ _ _ Hr) as (_ & _ & _ & -> & _).
Qed.

Lemma numbers_sorted a n :
  StronglySorted Z.lt ((λ i, Z.of_nat i + 1)%Z <$> seq a n).
Proof.
  revert a. induction n as [|n IH]; intros a; simpl; constructor; [apply IH|].
  apply Forall_fmap, Forall_forall. intros i [Hi _]%elem_of_seq. simpl. lia.
Qed.

Lemma StronglySorted_sublist {A} (R : relation A) l1 l2 :
  l1 `sublist_of` l2 → StronglySorted R l2 → StronglySorted R l1.
Proof.
  induction 1 as [|x l1 l2 Hsub IH|x l1 l2 Hsub IH];
    rewrite ?StronglySorted_cons; [done | |naive_solver].
  intros [Hx Hl2]. split; [|by apply IH].
  apply sublist_subseteq in Hsub. rewrite Forall_forall in Hx |- *. auto.
Qed.

(** A channel is found in the column that was read iff some index has a
    symbol of that channel at the position. *)
Lemma column_exists indexes pos l (P : ascii → Prop) (Q : string → Prop) :
  bases_at indexes pos = Ok l → (∀ c, Q (char c) ↔ P c) →
  (Exists Q l ↔ column_has indexes pos P).
Proof.
  intros Hl%bases_at_Ok HQ. rewrite Exists_exists. unfold column_has. split.
  - intros (b & [k Hk]%list_elem_of_lookup & Hb).
    destruct (Forall2_lookup_r _ _ _ _ _ Hl Hk) as (idx & Hidx & c & Hc & ->).
    exists idx, c. split_and!; [by eapply list_elem_of_lookup_2 | done |].
    by apply HQ.
  - intros (idx & c & [k Hk]%list_elem_of_lookup & Hc & HP).
    destruct (Forall2_lookup_l _ _ _ _ _ Hl Hk) as (b & Hb & c' & Hc' & ->).
    assert (c' = c) as -> by congruence.
    exists (char c). split; [by eapply list_elem_of_lookup_2 | by apply HQ].
Qed.

Lemma analysed_balanced indexes pos p :
  analysed indexes pos p →
  position p = (Z.of_nat pos + 1)%Z
  ∧ (is_balanced p = true ↔ column_balanced indexes pos).
Proof.
  intros (l & Hl & Hc).
  destruct (check_position_balance_Ok _ _ _ Hc) as (Hb & Hg & -> & -> & _).
  split; [done|]. unfold column_balanced.
  rewrite andb_true_iff, Hb, Hg.
  rewrite (column_exists indexes pos l (λ c, c = "A"%char ∨ c = "C"%char)),
    (column_exists indexes pos l (λ c, c = "C"%char ∨ c = "T"%char)); try done.
  - intros c. rewrite emits_green. unfold char. naive_solver.
  - intros c. rewrite emits_blue. unfold char. naive_solver.
Qed.

(** C1. For every non-empty list of sequences of one length over A, C, G and
    T, validate returns a result with one position for each place of the
    common length, numbered from 1 in order, each balanced exactly when the
    column of the indexes at that place has an A or a C and a C or a T;
    is_valid is true iff failed_positions is empty, and failed_positions is
    exactly the numbers of the positions that are not balanced, that is of
    the columns that are not, in ascending order. *)
Theorem validate_failed_positions (indexes : list string) :
  indexes ≠ [] → equal_length indexes → Forall is_sequence indexes →
  ∃ r, validate_indexes order indexes = Ok r
    ∧ (is_valid r = true ↔ failed_positions r = [])
    ∧ position <$> positions r = numbers (total_positions r)
    ∧ failed_positions r = position <$> filter unbalanced (positions r)
    ∧ (∀ n, n ∈ failed_positions r ↔
            ∃ p, p ∈ positions r ∧ position p = n ∧ is_balanced p = false)
    ∧ StronglySorted Z.lt (failed_positions r)
    ∧ (∀ idx, idx ∈ indexes → String.length idx = total_positions r)
    ∧ length (positions r) = total_positions r
    ∧ (∀ i p, positions r !! i = Some p →
         position p = (Z.of_nat i + 1)%Z
         ∧ (is_balanced p = true ↔ column_balanced indexes i))
    ∧ (∀ n, n ∈ failed_positions r ↔
            ∃ i, i < total_positions r ∧ n = (Z.of_nat i + 1)%Z
               ∧ ¬ column_balanced indexes i)
    ∧ (is_valid r = true ↔
         ∀ i, i < total_positions r → column_balanced indexes i).
Proof.
  intros Hne Heq Hseq.
  destruct (validate_indexes_total indexes Heq Hseq) as [r Hr]. exists r.
  destruct indexes as [|first rest]; [done|].
  destruct (validate_indexes_Ok _ _ _ Heq Hr) as (Hrs & Htot & Hf & _ & Hv).
  pose proof (analysed_numbers _ _ _ Hrs) as Hnum.
  fold (numbers (String.length first)) in Hnum.
  assert (length (positions r) = total_positions r) as Hlen.
  { by rewrite Htot, <- (Forall2_length _ _ _ Hrs), length_seq. }
  assert (∀ i p, positions r !! i = Some p →
            position p = (Z.of_nat i + 1)%Z
            ∧ (is_balanced p = true ↔ column_balanced (first :: rest) i))
    as Hpos.
  { intros i p Hp.
    destruct (Forall2_lookup_r _ _ _ _ _ Hrs Hp) as (pos & Hi & Han).
    apply lookup_seq in Hi as [-> _]. by apply analysed_balanced. }
  assert (∀ n, n ∈ failed_positions r ↔
               ∃ p, p ∈ positions r ∧ position p = n ∧ is_balanced p = false)
    as Hmem.
  { intros n. rewrite Hf, list_elem_of_fmap.
    setoid_rewrite list_elem_of_filter. unfold unbalanced. naive_solver. }
  assert (∀ n, n ∈ failed_positions r ↔
               ∃ i, i < total_positions r ∧ n = (Z.of_nat i + 1)%Z
                  ∧ ¬ column_balanced (first :: rest) i) as Hcol.
  { intros n. rewrite Hmem. split.
    - intros (p & [i Hi]%list_elem_of_lookup & <- & Hbal).
      destruct (Hpos i p Hi) as [Hn Hiff]. exists i. split_and!; [|done|].
      + rewrite <- Hlen. by eapply lookup_lt_Some.
      + intros Hc%Hiff. congruence.
    - intros (i & Hi & -> & Hc). rewrite <- Hlen in Hi.
      destruct (lookup_lt_is_Some_2 _ _ Hi) as [p Hp].
      destruct (Hpos i p Hp) as [Hn Hiff]. exists p.
      split_and!; [by eapply list_elem_of_lookup_2 | done |].
      destruct (is_balanced p); [|done]. by destruct Hc; apply Hiff. }
  rewrite <- Htot in Hnum.
  split_and!; try done.
  - rewrite Hf. apply (StronglySorted_sublist _ _ (position <$> positions r)).
    + apply fmap_sublist, sublist_filter.
    + rewrite Hnum. apply numbers_sorted.
  - intros idx Hidx. rewrite Htot. apply Heq; [done | apply list_elem_of_here].
  - rewrite Hv. split.
    + intros Hnil i Hi. rewrite <- Hlen in Hi.
      destruct (lookup_lt_is_Some_2 _ _ Hi) as [p Hp].
      destruct (Hpos i p Hp) as [Hn Hiff]. apply Hiff.
      destruct (is_balanced p) eqn:Hbal; [done|].
      assert (position p ∈ failed_positions r) as Hin.
      { apply Hmem. exists p. split_and!; [|done..].
        by eapply list_elem_of_lookup_2. }
      rewrite Hnil in Hin. by apply elem_of_nil in Hin.
    + intros Hall. destruct (failed_positions r) as [|n l] eqn:Hfp; [done|].
      destruct (proj1 (Hcol n)) as (i & Hi & _ & Hc); [by left|].
      destruct Hc. by apply Hall.
Qed.

Lemma validate_indexes_empty : validate_indexes order [] = Ok empty_result.
Proof. reflexivity. Qed.

Lemma validate_indexes_mixed indexes :
  mixed_lengths indexes →
  validate_indexes order indexes = Ok (mismatch_result order (lengths_of indexes)).
Proof.
  intros Hmix. destruct indexes as [|first rest].
  - by destruct Hmix as (s & _ & ?%elem_of_nil & _).
  - by rewrite validate_indexes_cons, lengths_test_mixed.
Qed.

(** C7. On the empty collection validate returns is_valid false, no
    positions, the warning No indexes provided and the summary No indexes to
    validate; on a collection with more than one distinct length it returns
    is_valid false, no positions, the single warning that renders the set of
    lengths and the summary Index length mismatch. Neither case looks at a
    symbol: the results hold whatever the indexes are made of. *)
Theorem validate_degenerate :
  validate_indexes order [] =
    Ok {| is_valid := false; total_positions := 0; positions := [];
          failed_positions := []; warnings := ["No indexes provided."];
          summary := "No indexes to validate." |}
  ∧ ∀ indexes, mixed_lengths indexes →
      validate_indexes order indexes =
        Ok {| is_valid := false; total_positions := 0; positions := [];
              failed_positions := [];
              warnings :=
                ["Indexes have different lengths: "
                 +:+ repr_set order (lengths_of indexes)
                 +:+ ". All indexes must be the same length."];
              summary := "Index length mismatch." |}.
Proof.
  split; [apply validate_indexes_empty | apply validate_indexes_mixed].
Qed.

Lemma failed_nil rs :
  position <$> filter unbalanced rs = [] ↔
  Forall (λ p, is_balanced p = true) rs.
Proof.
  induction rs as [|p rs IH]; [done|].
  rewrite filter_cons, Forall_cons, <- IH. unfold unbalanced at 1.
  case_decide as Hp; destruct (is_balanced p); naive_solver.
Qed.

(** The column of a single index is its symbol at the position. *)
Lemma analysed_single s pos r :
  analysed [s] pos r →
  ∃ c, letters s !! pos = Some c
     ∧ (is_balanced r = true ↔ c = "C"%char).
Proof.
  intros (l & Hl%bases_at_Ok & Hr).
  apply Forall2_cons_inv_l in Hl as (b & l' & (c & Hc & ->) & ->%Forall2_nil_inv_l & ->).
  exists c. split; [done|].
  destruct (check_position_balance_Ok _ _ _ Hr) as (Hb & Hg & -> & _).
  rewrite andb_true_iff, Hb, Hg, !Exists_cons, !Exists_nil, emits_blue, emits_green.
  unfold char. split; [|intros ->; auto]. intros [[[H|H]|[]] [[H'|H']|[]]]; congruence.
Qed.

(** C8. For a single sequence over A, C, G and T, validate puts the warning
    Only 1 index provided at the front of the warnings, before the
    recommendations of the positions in their order, and is_valid is decided
    by the positions alone: it is true iff every position is balanced, which
    for one sequence means that every symbol is C. *)
Theorem validate_single_index (s : string) :
  is_sequence s →
  ∃ r, validate_indexes order [s] = Ok r
    ∧ warnings r = msg_single :: omap recommendation (positions r)
    ∧ (is_valid r = true ↔ Forall (λ p, is_balanced p = true) (positions r))
    ∧ (is_valid r = true ↔ Forall (λ c, c = "C"%char) (letters s)).
Proof.
  intros Hs.
  assert (equal_length [s]) as Heq.
  { by intros s1 s2 ->%list_elem_of_singleton ->%list_elem_of_singleton. }
  destruct (validate_indexes_total [s] Heq) as [r Hr]; [by constructor|].
  exists r. split; [done|].
  destruct (validate_indexes_Ok _ _ _ Heq Hr) as (Hrs & _ & Hf & Hw & Hv).
  assert (is_valid r = true ↔ Forall (λ p, is_balanced p = true) (positions r))
    as Hbal.
  { by rewrite Hv, Hf, failed_nil. }
  split_and!; [done | done |].
  rewrite Hbal, !Forall_lookup. split.
  - intros Hall i c Hc.
    assert (seq 0 (String.length s) !! i = Some i) as Hi.
    { apply lookup_seq. split; [done|].
      rewrite <- length_chars, chars_letters, length_fmap.
      by eapply lookup_lt_Some. }
    destruct (Forall2_lookup_l _ _ _ _ _ Hrs Hi) as (p & Hp & Han).
    destruct (analysed_single _ _ _ Han) as (c' & Hc' & Hiff).
    assert (c = c') as -> by congruence. apply Hiff. by eapply Hall.
  - intros Hall i p Hp.
    destruct (Forall2_lookup_r _ _ _ _ _ Hrs Hp) as (pos & Hpos & Han).
    apply lookup_seq in Hpos as [-> _].
    destruct (analysed_single _ _ _ Han) as (c & Hc & Hiff).
    apply Hiff. by eapply Hall.
Qed.

(** C6. For every input string validate_from_text returns a result and
    raises nothing: the tokens that parse keeps are made of A, C, G and T, so
    every look-up of the analyzer in the channel table succeeds; an empty
    parse and a parse with more than one length are returned as results with
    is_valid false. *)
Theorem validate_from_text_total (input_text : string) :
  ∃ r, validate_from_text order input_text = Ok r
    ∧ Forall is_sequence (parse_indexes input_text)
    ∧ (parse_indexes input_text = [] → r = empty_result)
    ∧ (mixed_lengths (parse_indexes input_text) →
         r = mismatch_result order (lengths_of (parse_indexes input_text)))
    ∧ (parse_indexes input_text = [] ∨ mixed_lengths (parse_indexes input_text) →
         is_valid r = false).
Proof.
  unfold validate_from_text.
  pose proof (parse_indexes_sequences input_text) as Hseq.
  pose proof validate_indexes_empty as Hempty.
  pose proof validate_indexes_mixed as Hmixed.
  destruct (equal_or_mixed (parse_indexes input_text)) as [Heq|Hmix].
  - destruct (validate_indexes_total _ Heq Hseq) as [r Hr]. exists r.
    split_and!; [done | done | | |].
    + intros Hnil. rewrite Hnil, Hempty in Hr. by injection Hr as <-.
    + by intros ?%mixed_not_equal.
    + intros [Hnil | ?%mixed_not_equal]; [|done].
      rewrite Hnil, Hempty in Hr. by injection Hr as <-.
  - eexists. split; [by apply Hmixed|]. split_and!; try done.
    intros Hnil. rewrite Hnil in Hmix.
    by destruct Hmix as (s & _ & ?%elem_of_nil & _).
Qed.

(** C10. There is a non-empty list of sequences of one length, with a
    character outside A, C, G and T, on which validate raises a KeyError
    instead of returning a result: on the single index N the analyzer indexes
    the channel table with N, whereas the defensive look-up gives N the
    Unknown profile with both channels false. *)
Theorem validate_unknown_symbol_raises :
  ∃ indexes, indexes = ["N"]
    ∧ indexes ≠ [] ∧ equal_length indexes ∧ ¬ Forall is_sequence indexes
    ∧ validate_indexes order indexes = Raise (KeyError "N")
    ∧ check_position_balance 0 ["N"] = Raise (KeyError "N")
    ∧ get_color_profile "N" = Profile false false "Unknown".
Proof.
  exists ["N"]. split_and!; try done.
  - by intros s1 s2 ->%list_elem_of_singleton ->%list_elem_of_singleton.
  - intros [Hn _]%Forall_cons. apply Forall_cons in Hn as [Hn _].
    destruct Hn as [? | [? | [? | ?]]]; discriminate.
Qed.

Lemma validate_indexes_summary first rest r :
  equal_length (first :: rest) →
  validate_indexes order (first :: rest) = Ok r →
  summary r = summary_of (is_valid r) (warnings r)
                (length (failed_positions r)) (total_positions r).
Proof.
  intros Heq. rewrite validate_indexes_cons, lengths_test_equal by done.
  by intros (st & _ & [= <-])%bind_Ok.
Qed.

End Validate.

(** * Table builder *)

Section Table.
Import PyStr PyStrFacts.

Variable order : gset nat → list nat.

(** A row, whenever it can be built. *)
Lemma table_row_Ok indexes pos row :
  table_row indexes pos = Ok row →
  ∃ l, bases_at indexes pos = Ok l
     ∧ TableRow.position row = (Z.of_nat pos + 1)%Z
     ∧ TableRow.bases row = l
     ∧ (TableRow.has_blue row = true ↔ Exists (emits blue) l)
     ∧ (TableRow.has_green row = true ↔ Exists (emits green) l)
     ∧ TableRow.is_balanced row
       = TableRow.has_blue row && TableRow.has_green row.
Proof.
  unfold table_row.
  intros (l & Hl & (nb & Hb & (ng & Hg & [= <-])%bind_Ok)%bind_Ok)%bind_Ok.
  exists l. simpl. split_and!; try done.
  - rewrite Nat.ltb_lt. by apply count_channel_Ok.
  - rewrite Nat.ltb_lt. by apply count_channel_Ok.
Qed.

Lemma table_row_total indexes pos :
  Forall is_sequence indexes →
  Forall (λ idx, pos < String.length idx) indexes →
  ∃ row, table_row indexes pos = Ok row.
Proof.
  intros Hseq Hlt. unfold table_row.
  destruct (bases_at_total indexes pos Hlt) as [l Hl]. rewrite Hl. simpl.
  pose proof (bases_at_sequences _ _ _ Hseq Hl) as Hbases.
  destruct (count_channel_total blue l Hbases) as [nb ->].
  destruct (count_channel_total green l Hbases) as [ng ->].
  simpl. by eexists.
Qed.

(** Invariant of the loop of the table builder. *)
Lemma table_loop_Ok indexes l acc table :
  for_each (λ table pos, row ← table_row indexes pos; Ok (table ++ [row]))
    acc l = Ok table ↔
  ∃ rows, Forall2 (λ pos row, table_row indexes pos = Ok row) l rows
        ∧ table = acc ++ rows.
Proof.
  revert acc. induction l as [|pos l IH]; intros acc; simpl.
  - split.
    + intros [= <-]. exists []. by rewrite app_nil_r.
    + intros (rows & ->%Forall2_nil_inv_l & ->). by rewrite app_nil_r.
  - rewrite bind_Ok. split.
    + intros (acc' & (row & Hrow & [= <-])%bind_Ok & (rows & Hrows & ->)%IH).
      exists (row :: rows). split; [by constructor|]. by rewrite <- app_assoc.
    + intros (rows & (row & rows' & Hrow & Hrows & ->)%Forall2_cons_inv_l & ->).
      exists (acc ++ [row]). split; [by rewrite Hrow|].
      apply IH. exists rows'. split; [done|]. by rewrite <- app_assoc.
Qed.

(** A row and the analysis of the same position agree. *)
Lemma table_row_analysed indexes pos row p :
  table_row indexes pos = Ok row → analysed indexes pos p →
  TableRow.position row = position p
  ∧ TableRow.bases row = bases p
  ∧ TableRow.has_blue row = has_blue p
  ∧ TableRow.has_green row = has_green p
  ∧ TableRow.is_balanced row = is_balanced p.
Proof.
  intros (l & Hl & Hpos & Hbases & Hb & Hg & Hbal)%table_row_Ok (l' & Hl' & Hp).
  assert (l' = l) as -> by congruence.
  destruct (check_position_balance_Ok _ _ _ Hp)
    as (Hb' & Hg' & Hbal' & Hpos' & Hbases' & _).
  assert (TableRow.has_blue row = has_blue p) as Hblue.
  { apply eq_true_iff_eq. by rewrite Hb, Hb'. }
  assert (TableRow.has_green row = has_green p) as Hgreen.
  { apply eq_true_iff_eq. by rewrite Hg, Hg'. }
  split_and!; try done; congruence.
Qed.

(** C4. For a non-empty collection of sequences of one length over A, C, G
    and T, the table builder and validate both return, with one row and one
    analysis for each position, and at every position the row and the
    analysis have the same is_balanced, although one counts the bases that
    emit a channel and the other searches for one. *)
Theorem table_validate_consistent (indexes : list string) :
  indexes ≠ [] → equal_length indexes → Forall is_sequence indexes →
  ∃ r table,
    validate_indexes order indexes = Ok r
    ∧ get_color_balance_table indexes = Ok table
    ∧ length table = total_positions r
    ∧ length (positions r) = total_positions r
    ∧ ∀ i row p, table !! i = Some row → positions r !! i = Some p →
        TableRow.is_balanced row = is_balanced p.
Proof.
  intros Hne Heq Hseq.
  destruct (validate_indexes_total order indexes Heq Hseq) as [r Hr].
  destruct indexes as [|first rest]; [done|].
  destruct (validate_indexes_Ok _ _ _ _ Heq Hr) as (Hrs & Htot & _).
  assert (∃ rows, Forall2 (λ pos row, table_row (first :: rest) pos = Ok row)
                    (seq 0 (String.length first)) rows) as [rows Hrows].
  { clear Hrs. generalize (equal_length_lt first rest). intros Hlt.
    assert (Forall (λ pos, pos < String.length first)
              (seq 0 (String.length first))) as Hall.
    { apply Forall_forall. by intros pos [_ Hpos]%elem_of_seq. }
    induction Hall as [|pos l Hpos _ [rows IH]]; [by exists []|].
    destruct (table_row_total (first :: rest) pos Hseq) as [row Hrow]; [auto|].
    exists (row :: rows). by constructor. }
  exists r, rows. split; [done|]. split.
  { simpl. apply table_loop_Ok. by exists rows. }
  rewrite Htot.
  split; [by rewrite <- (Forall2_length _ _ _ Hrows), length_seq|].
  split; [by rewrite <- (Forall2_length _ _ _ Hrs), length_seq|].
  intros i row p Hrow Hp.
  destruct (Forall2_lookup_r _ _ _ _ _ Hrows Hrow) as (pos & Hpos & Hrow').
  destruct (Forall2_lookup_r _ _ _ _ _ Hrs Hp) as (pos' & Hpos' & Hp').
  assert (pos' = pos) as -> by congruence.
  by destruct (table_row_analysed _ _ _ _ Hrow' Hp') as (_ & _ & _ & _ & ?).
Qed.

End Table.

(** * The theorems at concrete inputs *)

Lemma equal_length_Forall first rest :
  Forall (λ s, String.length s = String.length first) rest →
  equal_length (first :: rest).
Proof.
  intros Hall. assert (∀ s, s ∈ first :: rest →
                         String.length s = String.length first) as Hlen.
  { intros s [-> | Hs]%elem_of_cons; [done|].
    rewrite Forall_forall in Hall. auto. }
  intros s1 s2 H1 H2. by rewrite (Hlen s1), (Hlen s2).
Qed.

Lemma parse_separator_priority_witness :
  separator_priority PyStr.strip ("A,C" +:+ PyStr.char nl).
Proof. exact (parse_separator_priority ("A,C" +:+ PyStr.char nl)). Defined.

Lemma validate_failed_positions_witness :
  let indexes := ["GATC"; "GATC"; "GTTC"] in
  indexes ≠ [] ∧ equal_length indexes ∧ Forall is_sequence indexes
  ∧ ∃ r, validate_indexes order0 indexes = Ok r
    ∧ (is_valid r = true ↔ failed_positions r = [])
    ∧ position <$> positions r = numbers (total_positions r)
    ∧ failed_positions r = position <$> filter unbalanced (positions r)
    ∧ (∀ n, n ∈ failed_positions r ↔
            ∃ p, p ∈ positions r ∧ position p = n ∧ is_balanced p = false)
    ∧ StronglySorted Z.lt (failed_positions r)
    ∧ (∀ idx, idx ∈ indexes → String.length idx = total_positions r)
    ∧ length (positions r) = total_positions r
    ∧ (∀ i p, positions r !! i = Some p →
         position p = (Z.of_nat i + 1)%Z
         ∧ (is_balanced p = true ↔ column_balanced indexes i))
    ∧ (∀ n, n ∈ failed_positions r ↔
            ∃ i, i < total_positions r ∧ n = (Z.of_nat i + 1)%Z
               ∧ ¬ column_balanced indexes i)
    ∧ (is_valid r = true ↔
         ∀ i, i < total_positions r → column_balanced indexes i).
Proof.
  intros indexes.
  assert (indexes ≠ []) as Hne by done.
  assert (equal_length indexes) as Heq by (apply equal_length_Forall; solve_lengths).
  assert (Forall is_sequence indexes) as Hseq by solve_sequences.
  split_and!; [done..|].
  exact (validate_failed_positions order0 indexes Hne Heq Hseq).
Defined.

Lemma table_validate_consistent_witness :
  let indexes := ["AT"; "CG"] in
  indexes ≠ [] ∧ equal_length indexes ∧ Forall is_sequence indexes
  ∧ ∃ r table,
      validate_indexes order0 indexes = Ok r
      ∧ get_color_balance_table indexes = Ok table
      ∧ length table = total_positions r
      ∧ length (positions r) = total_positions r
      ∧ ∀ i row p, table !! i = Some row → positions r !! i = Some p →
          TableRow.is_balanced row = is_balanced p.
Proof.
  intros indexes.
  assert (indexes ≠ []) as Hne by done.
  assert (equal_length indexes) as Heq by (apply equal_length_Forall; solve_lengths).
  assert (Forall is_sequence indexes) as Hseq by solve_sequences.
  split_and!; [done..|].
  exact (table_validate_consistent order0 indexes Hne Heq Hseq).
Defined.

Lemma validate_degenerate_witness :
  mixed_lengths ["ATCG"; "ATCGATCG"]
  ∧ validate_indexes order0 ["ATCG"; "ATCGATCG"] =
      Ok {| is_valid := false; total_positions := 0; positions := [];
            failed_positions := [];
            warnings :=
              ["Indexes have different lengths: "
               +:+ repr_set order0 (lengths_of ["ATCG"; "ATCGATCG"])
               +:+ ". All indexes must be the same length."];
            summary := "Index length mismatch." |}.
Proof.
  assert (mixed_lengths ["ATCG"; "ATCGATCG"]) as Hmix.
  { exists "ATCG", "ATCGATCG". split_and!; [set_solver | set_solver | done]. }
  split; [exact Hmix|].
  exact (proj2 (validate_degenerate order0) ["ATCG"; "ATCGATCG"] Hmix).
Defined.

Lemma validate_single_index_witness :
  is_sequence "CC"
  ∧ ∃ r, validate_indexes order0 ["CC"] = Ok r
    ∧ warnings r = msg_single :: omap recommendation (positions r)
    ∧ (is_valid r = true ↔ Forall (λ p, is_balanced p = true) (positions r))
    ∧ (is_valid r = true ↔ Forall (λ c, c = "C"%char) (letters "CC")).
Proof.
  assert (is_sequence "CC") as Hs by solve_sequence.
  split; [exact Hs | exact (validate_single_index order0 "CC" Hs)].
Defined.

(** * More of the repository's tests, and the corners the theorems name *)

Example test_all_g_position_fails :
  (λ r, (is_valid r, failed_positions r)) <$>
    validate_indexes order0 ["GATC"; "GATC"; "GATC"; "GATC"]
  = Ok (false, [1%Z; 2%Z; 3%Z]).
Proof. vm_compute. reflexivity. Qed.

Example test_single_index_warning :
  (λ r, (is_valid r, head (warnings r))) <$>
    validate_indexes order0 ["ATCGATCG"]
  = Ok (false, Some msg_single).
Proof. vm_compute. reflexivity. Qed.

Example single_index_valid :
  (λ r, (is_valid r, warnings r, summary r)) <$> validate_indexes order0 ["C"]
  = Ok (true,
        [msg_single;
         "Position 1: Low diversity (1 unique base). Consider more varied indexes."],
        "PASS with warnings. All 1 positions are color-balanced.").
Proof. vm_compute. reflexivity. Qed.

Example test_problematic_low_plex :
  (λ r, (is_valid r, length (failed_positions r))) <$>
    validate_indexes order0 ["GGGGAAAA"; "GGGGAAAA"]
  = Ok (false, 8).
Proof. vm_compute. reflexivity. Qed.

Example test_table_generation :
  List.map (λ row, (TableRow.position row, TableRow.has_blue row,
                    TableRow.has_green row)) <$>
    get_color_balance_table ["AT"; "CG"]
  = Ok [(1%Z, true, true); (2%Z, false, true)].
Proof. vm_compute. reflexivity. Qed.

Example test_get_color_profile_lowercase :
  get_color_profile "a" = Profile true false "Blue only".
Proof. vm_compute. reflexivity. Qed.

(** [any] stops at the first base that emits the channel, the sum of the
    table builder does not: next to a C an unknown symbol is not looked up by
    the analyzer, and is by the table builder. *)
Example unknown_symbol_after_c :
  is_valid <$> validate_indexes order0 ["C"; "N"] = Ok true
  ∧ get_color_balance_table ["C"; "N"] = Raise (KeyError "N").
Proof. split; vm_compute; reflexivity. Qed.

(** Without a guard on the lengths the table builder reads past the end of
    a shorter index. *)
Example table_ragged :
  get_color_balance_table ["AT"; "C"] = Raise IndexError.
Proof. vm_compute. reflexivity. Qed.

(** * Further properties of the channel model and the position analyzer *)

Section PositionMore.
Import PyStr PyStrFacts.

Lemma upper_idem s : upper (upper s) = upper s.
Proof. induction s; simpl; [done|]. by rewrite upper_char_idem, IHs. Qed.

(** X1. The defensive look-up never fails and ignores case: it returns the
    entry of the table when the base in upper case is a key, the Unknown
    profile with both channels false otherwise, and the same profile for a
    base and for its upper case. *)
Theorem get_color_profile_defensive (base : string) :
  (∀ p, XLEAP_COLORS !! upper base = Some p → get_color_profile base = p)
  ∧ (is_base_str (upper base) ∨
       get_color_profile base = Profile false false "Unknown")
  ∧ get_color_profile (upper base) = get_color_profile base
  ∧ (blue (get_color_profile base) = true ↔
       upper base = "A" ∨ upper base = "C")
  ∧ (green (get_color_profile base) = true ↔
       upper base = "C" ∨ upper base = "T").
Proof.
  unfold get_color_profile. rewrite upper_idem. split_and!; try done.
  - by intros p ->.
  - destruct (XLEAP_COLORS !! upper base) as [p|] eqn:Hp; [left | by right].
    apply colors_defined. by rewrite Hp.
  - rewrite <- emits_blue. unfold emits.
    destruct (XLEAP_COLORS !! upper base) as [p|]; simpl; naive_solver.
  - rewrite <- emits_green. unfold emits.
    destruct (XLEAP_COLORS !! upper base) as [p|]; simpl; naive_solver.
Qed.

Lemma any_channel_raises ch l e :
  any_channel ch l = Raise e →
  ∃ b, e = KeyError b ∧ b ∈ l ∧ ¬ is_base_str b.
Proof.
  induction l as [|b l IH]; simpl; [done|].
  unfold colors_getitem at 1.
  destruct (XLEAP_COLORS !! b) as [p|] eqn:Hp; simpl.
  - destruct (ch p); [done|]. intros (b' & ? & ? & ?)%IH.
    exists b'. split_and!; [done | by right | done].
  - intros [= <-]. exists b. split_and!; [done | by left |].
    intros [p Hp']%colors_defined. congruence.
Qed.

Lemma check_raises_key pos l e :
  check_position_balance pos l = Raise e →
  ∃ b, e = KeyError b ∧ b ∈ l ∧ ¬ is_base_str b.
Proof.
  unfold check_position_balance.
  destruct (any_channel blue l) as [vb|eb] eqn:Hb; simpl.
  - destruct (any_channel green l) as [vg|eg] eqn:Hg; simpl; [done|].
    intros [= <-]. by eapply any_channel_raises.
  - intros [= <-]. by eapply any_channel_raises.
Qed.

(** X2. The analyzer raises nothing but a KeyError, and the key is one of
    the bases it was given that is not A, C, G or T. *)
Theorem check_position_balance_raises (pos : Z) (l : list string) (e : exn) :
  check_position_balance pos l = Raise e →
  ∃ b, e = KeyError b ∧ b ∈ l ∧ ¬ is_base_str b.
Proof. apply check_raises_key. Qed.

Lemma check_position_balance_raises_witness :
  check_position_balance 0 ["A"; "N"] = Raise (KeyError "N")
  ∧ ∃ b, KeyError "N" = KeyError b ∧ b ∈ ["A"; "N"] ∧ ¬ is_base_str b.
Proof.
  assert (check_position_balance 0 ["A"; "N"] = Raise (KeyError "N")) as H
    by reflexivity.
  split; [exact H | exact (check_position_balance_raises 0 ["A"; "N"] _ H)].
Defined.

(** X3. On bases drawn from A, C, G and T each recommendation says what is
    the case: the dark message is given iff every base is G (none included),
    the No blue message iff a T is present among G and T only, the No green
    message iff an A is present among G and A only, the Low diversity message
    with its count 1 iff the bases are one or more C and nothing else, and no
    recommendation iff the position is balanced with two or more distinct
    bases. *)
Theorem recommendation_meaning (pos : Z) (l : list string) :
  Forall is_base_str l →
  ∃ r, check_position_balance pos l = Ok r
    ∧ (recommendation r = Some (msg_dark pos) ↔ Forall (λ b, b = "G") l)
    ∧ (recommendation r = Some (msg_no_blue pos) ↔
         "T" ∈ l ∧ Forall (λ b, b = "G" ∨ b = "T") l)
    ∧ (recommendation r = Some (msg_no_green pos) ↔
         "A" ∈ l ∧ Forall (λ b, b = "G" ∨ b = "A") l)
    ∧ (recommendation r = Some (msg_low_diversity pos 1) ↔
         l ≠ [] ∧ Forall (λ b, b = "C") l)
    ∧ (recommendation r = None ↔
         is_balanced r = true ∧ 2 ≤ unique_bases r).
Proof. apply recommended_on_bases. Qed.

Lemma recommendation_meaning_witness :
  Forall is_base_str ["T"; "G"; "T"]
  ∧ ∃ r, check_position_balance 2 ["T"; "G"; "T"] = Ok r
    ∧ (recommendation r = Some (msg_dark 2) ↔
         Forall (λ b, b = "G") ["T"; "G"; "T"])
    ∧ (recommendation r = Some (msg_no_blue 2) ↔
         "T" ∈ ["T"; "G"; "T"]
         ∧ Forall (λ b, b = "G" ∨ b = "T") ["T"; "G"; "T"])
    ∧ (recommendation r = Some (msg_no_green 2) ↔
         "A" ∈ ["T"; "G"; "T"]
         ∧ Forall (λ b, b = "G" ∨ b = "A") ["T"; "G"; "T"])
    ∧ (recommendation r = Some (msg_low_diversity 2 1) ↔
         ["T"; "G"; "T"] ≠ [] ∧ Forall (λ b, b = "C") ["T"; "G"; "T"])
    ∧ (recommendation r = None ↔
         is_balanced r = true ∧ 2 ≤ unique_bases r).
Proof.
  assert (Forall is_base_str ["T"; "G"; "T"]) as Hb by solve_bases.
  split; [exact Hb | exact (recommendation_meaning 2 ["T"; "G"; "T"] Hb)].
Defined.

(** X4. The count of unique bases is the number of distinct strings among
    the bases: the length of the list without its repetitions, at most the
    number of bases, at least 1 when there is a base, and at most 4 when the
    bases are drawn from A, C, G and T. *)
Theorem unique_bases_count (pos : Z) (l : list string) (r : PositionResult) :
  check_position_balance pos l = Ok r →
  unique_bases r = length (remove_dups l)
  ∧ unique_bases r ≤ length l
  ∧ (l = [] ∨ 1 ≤ unique_bases r)
  ∧ (Forall is_base_str l → unique_bases r ≤ 4).
Proof.
  intros (_ & _ & _ & _ & _ & Hu & _)%check_position_balance_Ok.
  assert (unique_bases r = length (remove_dups l)) as Hlen.
  { rewrite Hu, <- (size_list_to_set (C:=gset string) (remove_dups l))
      by apply NoDup_remove_dups.
    f_equal. apply set_eq. intros x.
    by rewrite !elem_of_list_to_set, elem_of_remove_dups. }
  split_and!; [done | | |].
  - rewrite Hlen. apply sublist_length.
    clear. induction l as [|x l IH]; simpl; [done|].
    case_decide; by constructor.
  - destruct l as [|b l]; [by left | right]. rewrite Hu.
    assert ({[ b ]} ⊆ (list_to_set (b :: l) : gset string)) as Hsub
      by set_solver.
    apply subseteq_size in Hsub. by rewrite size_singleton in Hsub.
  - intros Hall. rewrite Hu.
    assert ((list_to_set l : gset string) ⊆ {[ "A"; "C"; "G"; "T" ]}) as Hsub.
    { intros x Hx%elem_of_list_to_set. rewrite Forall_forall in Hall.
      destruct (Hall x Hx) as [-> | [-> | [-> | ->]]]; set_solver. }
    apply subseteq_size in Hsub. etrans; [exact Hsub|].
    rewrite !size_union, !size_singleton by set_solver. done.
Qed.

Lemma unique_bases_count_witness :
  ∃ r, check_position_balance 0 ["A"; "C"; "A"] = Ok r
    ∧ unique_bases r = length (remove_dups ["A"; "C"; "A"])
    ∧ unique_bases r ≤ length ["A"; "C"; "A"]
    ∧ (["A"; "C"; "A"] = [] ∨ 1 ≤ unique_bases r)
    ∧ (Forall is_base_str ["A"; "C"; "A"] → unique_bases r ≤ 4).
Proof.
  eexists. split; [reflexivity|].
  exact (unique_bases_count 0 ["A"; "C"; "A"] _ eq_refl).
Defined.

End PositionMore.

(** * Further properties of the aggregate validator *)

Section ValidateMore.
Import PyStr PyStrFacts.

Variable order : gset nat → list nat.

(** X5. In a result for indexes of one length, the position at place [i]
    has the number [i + 1] and its bases are column [i] of the indexes: one
    base for each index, in the order of the indexes, the one at place [k]
    being the symbol at place [i] of index [k]. *)
Theorem validate_positions_columns
    (indexes : list string) (r : ValidationResult) :
  indexes ≠ [] → equal_length indexes →
  validate_indexes order indexes = Ok r →
  ∀ i p, positions r !! i = Some p →
    position p = (Z.of_nat i + 1)%Z
    ∧ length (bases p) = length indexes
    ∧ ∀ k idx, indexes !! k = Some idx →
        ∃ c, letters idx !! i = Some c ∧ bases p !! k = Some (char c).
Proof.
  intros Hne Heq Hr i p Hp. destruct indexes as [|first rest]; [done|].
  destruct (validate_indexes_Ok _ _ _ _ Heq Hr) as (Hrs & _).
  destruct (Forall2_lookup_r _ _ _ _ _ Hrs Hp) as (pos & Hpos & l & Hl & Hc).
  apply lookup_seq in Hpos as [-> _]. simpl in Hc.
  destruct (check_position_balance_Ok _ _ _ Hc) as (_ & _ & _ & -> & -> & _).
  apply bases_at_Ok in Hl. split_and!; [done | by rewrite (Forall2_length _ _ _ Hl) |].
  intros k idx Hk.
  destruct (Forall2_lookup_l _ _ _ _ _ Hl Hk) as (b & Hb & c & Hc' & ->).
  by exists c.
Qed.

Lemma for_each_raises {S A} (body : S → A → result S) st l e :
  for_each body st l = Raise e → ∃ st' x, x ∈ l ∧ body st' x = Raise e.
Proof.
  revert st. induction l as [|x l IH]; intros st; simpl; [done|].
  destruct (body st x) as [st1|e1] eqn:Hx; simpl.
  - intros (st' & y & Hy & He)%IH. exists st', y. split; [by right | done].
  - intros [= <-]. exists st, x. split; [by left | done].
Qed.

Lemma is_base_char c : is_base_str (char c) ↔ is_base c.
Proof.
  unfold is_base_str, is_base, char.
  split; intros [H | [H | [H | H]]]; first [injection H as -> | subst c]; auto 6.
Qed.

Lemma validate_raises_symbol indexes e :
  validate_indexes order indexes = Raise e →
  ∃ idx c, idx ∈ indexes ∧ c ∈ letters idx ∧ ¬ is_base c
         ∧ e = KeyError (char c).
Proof.
  destruct (equal_or_mixed indexes) as [Heq|Hmix];
    [|by rewrite validate_indexes_mixed].
  destruct indexes as [|first rest]; [done|].
  rewrite validate_indexes_cons, lengths_test_equal by done.
  destruct (for_each _ _ _) as [st|e'] eqn:Hloop; simpl; [done|].
  intros [= ->].
  apply for_each_raises in Hloop as (st & pos & [_ Hpos]%elem_of_seq & Hstep).
  unfold validate_step in Hstep.
  destruct (bases_at_total (first :: rest) pos) as [l Hl];
    [by apply equal_length_lt|].
  rewrite Hl in Hstep. simpl in Hstep.
  destruct (check_position_balance _ l) as [p|e'] eqn:Hc; simpl in Hstep;
    [done|]. injection Hstep as ->.
  apply check_raises_key in Hc as (b & -> & Hb & Hnb).
  apply bases_at_Ok in Hl. apply list_elem_of_lookup in Hb as [k Hk].
  destruct (Forall2_lookup_r _ _ _ _ _ Hl Hk) as (idx & Hidx & c & Hc & ->).
  exists idx, c. split_and!; [by eapply list_elem_of_lookup_2
    | by eapply list_elem_of_lookup_2 | by rewrite <- is_base_char | done].
Qed.

(** X6. On any list of strings validate raises nothing but a KeyError, never
    an IndexError, and the key is a character of one of the indexes that is
    not A, C, G or T. *)
Theorem validate_indexes_raises (indexes : list string) (e : exn) :
  validate_indexes order indexes = Raise e →
  e ≠ IndexError
  ∧ ∃ idx c, idx ∈ indexes ∧ c ∈ letters idx ∧ ¬ is_base c
           ∧ e = KeyError (char c).
Proof.
  intros (idx & c & H1 & H2 & H3 & ->)%validate_raises_symbol.
  split; [done|]. by exists idx, c.
Qed.

(** *** Warnings and summary *)

Lemma analysed_recommended indexes pos p :
  analysed indexes pos p → is_balanced p = false → is_Some (recommendation p).
Proof.
  intros (l & _ & Hc) Hbal.
  destruct (check_position_balance_Ok _ _ _ Hc)
    as (_ & _ & Hb & _ & _ & _ & ->).
  rewrite Hb in Hbal. unfold recommendation_policy.
  destruct (has_blue p), (has_green p); simpl; by eauto.
Qed.

Lemma length_omap_le {A B} (f : A → option B) l : length (omap f l) ≤ length l.
Proof. induction l as [|x l IH]; csimpl; [done|]. destruct (f x); csimpl; lia. Qed.

Lemma failed_le_recommended (rs : list PositionResult) :
  Forall (λ p, is_balanced p = false → is_Some (recommendation p)) rs →
  length (filter unbalanced rs) ≤ length (omap recommendation rs).
Proof.
  induction 1 as [|p rs Hp _ IH]; [done|]. rewrite filter_cons. csimpl.
  case_decide as Hu.
  - destruct (Hp Hu) as [s ->]. csimpl. lia.
  - destruct (recommendation p); csimpl; lia.
Qed.

Lemma analysed_Forall indexes l rs (P : PositionResult → Prop) :
  (∀ pos p, analysed indexes pos p → P p) →
  Forall2 (analysed indexes) l rs → Forall P rs.
Proof. intros HP. induction 1; constructor; eauto. Qed.

(** X7. In a result for indexes of one length the warnings are the
    single-index warning, when there is one index, followed by the
    recommendations of the positions in order. Every unbalanced position has
    its recommendation among them, so there are at least as many warnings as
    failed positions and at most one more than positions, and a result that
    is not valid has a warning. *)
Theorem validate_warnings (indexes : list string) (r : ValidationResult) :
  indexes ≠ [] → equal_length indexes →
  validate_indexes order indexes = Ok r →
  warnings r =
    (if decide (length indexes = 1) then [msg_single] else [])
    ++ omap recommendation (positions r)
  ∧ (∀ p, p ∈ positions r → is_balanced p = false →
       ∃ s, recommendation p = Some s ∧ s ∈ warnings r)
  ∧ length (failed_positions r) ≤ length (warnings r)
  ∧ length (warnings r) ≤ total_positions r + 1
  ∧ (is_valid r = false → warnings r ≠ []).
Proof.
  intros Hne Heq Hr. destruct indexes as [|first rest]; [done|].
  destruct (validate_indexes_Ok _ _ _ _ Heq Hr) as (Hrs & Htot & Hf & Hw & Hv).
  assert (Forall (λ p, is_balanced p = false → is_Some (recommendation p))
            (positions r)) as Hrec.
  { eapply analysed_Forall; [|exact Hrs]. apply analysed_recommended. }
  assert (length (positions r) = total_positions r) as Hlen.
  { by rewrite Htot, <- (Forall2_length _ _ _ Hrs), length_seq. }
  assert (length (failed_positions r) ≤ length (warnings r)) as Hle.
  { rewrite Hf, Hw, length_fmap, length_app.
    pose proof (failed_le_recommended _ Hrec). lia. }
  split_and!.
  - rewrite Hw. f_equal. by destruct rest.
  - intros p Hp Hbal. rewrite Forall_forall in Hrec.
    destruct (Hrec p Hp Hbal) as [s Hs]. exists s. split; [done|].
    rewrite Hw, elem_of_app, list_elem_of_omap. right. by exists p.
  - done.
  - rewrite Hw, length_app, <- Hlen.
    pose proof (length_omap_le recommendation (positions r)).
    destruct (length (first :: rest) <? 2); simpl; lia.
  - intros Hinv Hnil. rewrite Hnil in Hle. simpl in Hle.
    assert (failed_positions r = []) as Hfn
      by (apply length_zero_iff_nil; lia).
    apply Hv in Hfn. congruence.
Qed.

(** X8. The summary of a result for indexes of one length agrees with the
    verdict: it starts with PASS exactly when the result is valid, a valid
    result has the plain PASS summary exactly when it has no warning, and a
    result that is not valid has the FAIL summary with the number of failed
    positions, which is between 1 and the number of positions. *)
Theorem validate_summary (indexes : list string) (r : ValidationResult) :
  indexes ≠ [] → equal_length indexes →
  validate_indexes order indexes = Ok r →
  String.prefix "PASS" (summary r) = is_valid r
  ∧ (is_valid r = true →
       (warnings r = [] ↔
          summary r = "PASS. All " +:+ pretty (total_positions r)
                      +:+ " positions are color-balanced."))
  ∧ (is_valid r = false →
       summary r = "FAIL. " +:+ pretty (length (failed_positions r))
                   +:+ " of " +:+ pretty (total_positions r)
                   +:+ " positions lack color balance."
       ∧ 1 ≤ length (failed_positions r) ≤ total_positions r).
Proof.
  intros Hne Heq Hr. destruct indexes as [|first rest]; [done|].
  rewrite (validate_indexes_summary _ _ _ _ Heq Hr).
  destruct (validate_indexes_Ok _ _ _ _ Heq Hr) as (Hrs & Htot & Hf & _ & Hv).
  assert (length (positions r) = total_positions r) as Hlen.
  { by rewrite Htot, <- (Forall2_length _ _ _ Hrs), length_seq. }
  unfold summary_of. split_and!.
  - destruct (is_valid r); [by case_bool_decide | done].
  - intros ->. case_bool_decide as Hw.
    + split; [done | intros [=]].
    + split; [done|]. intros _. by destruct (warnings r); [|destruct Hw].
  - intros Hinv. rewrite Hinv. split; [done|]. split.
    + destruct (failed_positions r) eqn:Hfp; simpl; [|lia].
      assert (is_valid r = true) by by apply Hv. congruence.
    + rewrite Hf, length_fmap, <- Hlen. apply length_filter.
Qed.

(** *** The order of the indexes *)

Lemma bases_at_fmap indexes pos l :
  bases_at indexes pos = Ok l → l = base_at pos <$> indexes.
Proof.
  revert l. induction indexes as [|idx indexes IH]; intros l.
  - by intros [= <-].
  - rewrite bases_at_cons, fmap_cons.
    intros (b & Hb & (l' & ->%IH & [= <-])%bind_Ok)%bind_Ok. f_equal.
    unfold str_getitem in Hb. unfold base_at.
    destruct (chars idx !! pos); simpl; congruence.
Qed.

Lemma analysed_permutation indexes indexes' pos p p' :
  indexes ≡ₚ indexes' →
  analysed indexes pos p → analysed indexes' pos p' → same_analysis p p'.
Proof.
  intros Hperm (l & Hl & Hc) (l' & Hl' & Hc').
  assert (l ≡ₚ l') as Hll.
  { rewrite (bases_at_fmap _ _ _ Hl), (bases_at_fmap _ _ _ Hl').
    by apply fmap_Permutation. }
  destruct (check_position_balance_Ok _ _ _ Hc)
    as (Hb & Hg & Hbal & Hpos & Hbases & Hu & Hrec).
  destruct (check_position_balance_Ok _ _ _ Hc')
    as (Hb' & Hg' & Hbal' & Hpos' & Hbases' & Hu' & Hrec').
  assert (has_blue p = has_blue p') as Eb.
  { apply eq_true_iff_eq. by rewrite Hb, Hb', Hll. }
  assert (has_green p = has_green p') as Eg.
  { apply eq_true_iff_eq. by rewrite Hg, Hg', Hll. }
  assert (unique_bases p = unique_bases p') as Eu.
  { rewrite Hu, Hu'. f_equal. by apply list_to_set_perm_L. }
  unfold same_analysis. rewrite Hpos, Hpos', Hbases, Hbases', Hbal, Hbal',
    Hrec, Hrec', Eb, Eg, Eu. done.
Qed.

Lemma Forall2_common_source {A B C} (P : A → B → Prop) (Q : A → C → Prop)
    (R : B → C → Prop) l k1 k2 :
  (∀ x y z, P x y → Q x z → R y z) →
  Forall2 P l k1 → Forall2 Q l k2 → Forall2 R k1 k2.
Proof.
  intros HR H1. revert k2. induction H1 as [|x y l k1 Hxy _ IH]; intros k2.
  - by intros ->%Forall2_nil_inv_l.
  - intros (z & k2' & Hxz & Hk2' & ->)%Forall2_cons_inv_l.
    constructor; eauto.
Qed.

Lemma same_analysis_lists rs rs' :
  Forall2 same_analysis rs rs' →
  position <$> filter unbalanced rs = position <$> filter unbalanced rs'
  ∧ omap recommendation rs = omap recommendation rs'.
Proof.
  induction 1 as [|p p' rs rs' (Hpos & _ & _ & _ & Hbal & _ & Hrec) _ [IH1 IH2]];
    [done|].
  rewrite !filter_cons. csimpl. rewrite Hrec, IH2. split; [|done].
  destruct (decide (unbalanced p)), (decide (unbalanced p'));
    unfold unbalanced in *; csimpl;
    [by rewrite Hpos, IH1 | congruence | congruence | done].
Qed.

Lemma equal_length_permutation indexes indexes' :
  indexes ≡ₚ indexes' → equal_length indexes → equal_length indexes'.
Proof.
  intros Hperm Heq s1 s2 H1 H2. rewrite <- Hperm in H1, H2. by apply Heq.
Qed.

Lemma mixed_lengths_permutation indexes indexes' :
  indexes ≡ₚ indexes' → mixed_lengths indexes → mixed_lengths indexes'.
Proof.
  intros Hperm (s1 & s2 & H1 & H2 & Hne). exists s1, s2.
  by rewrite <- Hperm.
Qed.

(** X9. The order of the indexes does not matter: for sequences over A, C,
    G and T, validate returns on a list and on any permutation of it results
    with the same verdict, number of positions, failed positions and summary,
    and position by position the same analysis, the bases being permuted as
    the indexes are. The warnings are the same when the indexes have one
    length; when they have not, each result has the single warning about the
    lengths, in which the set of lengths may be listed in another order (the
    two calls are given their own listing orders). *)
Theorem validate_permutation (order' : gset nat → list nat)
    (indexes indexes' : list string) :
  Forall is_sequence indexes → indexes ≡ₚ indexes' →
  ∃ r r', validate_indexes order indexes = Ok r
    ∧ validate_indexes order' indexes' = Ok r'
    ∧ is_valid r = is_valid r'
    ∧ total_positions r = total_positions r'
    ∧ failed_positions r = failed_positions r'
    ∧ summary r = summary r'
    ∧ Forall2 same_analysis (positions r) (positions r')
    ∧ (equal_length indexes → warnings r = warnings r')
    ∧ (mixed_lengths indexes →
         warnings r = [msg_lengths order (lengths_of indexes)]
         ∧ warnings r' = [msg_lengths order' (lengths_of indexes)]).
Proof.
  intros Hseq Hperm.
  assert (lengths_of indexes' = lengths_of indexes) as Hlen.
  { unfold lengths_of. apply list_to_set_perm_L. by apply fmap_Permutation. }
  destruct (equal_or_mixed indexes) as [Heq|Hmix].
  2:{ exists (mismatch_result order (lengths_of indexes)),
        (mismatch_result order' (lengths_of indexes')).
      rewrite !validate_indexes_mixed
        by eauto using mixed_lengths_permutation.
      rewrite Hlen. split_and!; try done.
      by intros ?%mixed_not_equal. }
  assert (Forall is_sequence indexes') as Hseq' by by rewrite <- Hperm.
  pose proof (equal_length_permutation _ _ Hperm Heq) as Heq'.
  destruct (validate_indexes_total order indexes Heq Hseq) as [r Hr].
  destruct (validate_indexes_total order' indexes' Heq' Hseq') as [r' Hr'].
  exists r, r'. split; [done|]. split; [done|].
  destruct indexes as [|first rest].
  { apply Permutation_nil in Hperm as ->.
    rewrite validate_indexes_empty in Hr, Hr'.
    injection Hr as <-. injection Hr' as <-. split_and!; try done.
    by intros ?%mixed_not_equal. }
  destruct indexes' as [|first' rest'];
    [by apply Permutation_sym, Permutation_nil in Hperm|].
  assert (String.length first' = String.length first) as HL.
  { apply Heq; [rewrite Hperm|]; apply list_elem_of_here. }
  destruct (validate_indexes_Ok _ _ _ _ Heq Hr) as (Hrs & Htot & Hf & Hw & Hv).
  destruct (validate_indexes_Ok _ _ _ _ Heq' Hr')
    as (Hrs' & Htot' & Hf' & Hw' & Hv').
  rewrite HL in Hrs'.
  assert (Forall2 same_analysis (positions r) (positions r')) as Hsame.
  { eapply Forall2_common_source; [|exact Hrs|exact Hrs'].
    intros pos p p'. by apply analysed_permutation. }
  destruct (same_analysis_lists _ _ Hsame) as [Ef Ew].
  assert (failed_positions r = failed_positions r') as Efp by congruence.
  assert (warnings r = warnings r') as Ewr.
  { rewrite Hw, Hw', Ew. by rewrite (Permutation_length Hperm). }
  assert (is_valid r = is_valid r') as Ev.
  { apply eq_true_iff_eq. by rewrite Hv, Hv', Efp. }
  assert (total_positions r = total_positions r') as Et by congruence.
  split_and!; try done.
  - rewrite (validate_indexes_summary _ _ _ _ Heq Hr),
      (validate_indexes_summary _ _ _ _ Heq' Hr').
    by rewrite Ev, Ewr, Efp, Et.
  - by intros ?%mixed_not_equal.
Qed.

(** *** Adding an index *)




End ValidateMore.

(** * Further properties of the table builder *)

Section TableMore.
Import PyStr PyStrFacts.

Lemma bases_at_raises indexes pos e :
  bases_at indexes pos = Raise e → e = IndexError.
Proof.
  induction indexes as [|idx indexes IH]; [done|].
  rewrite bases_at_cons. unfold str_getitem.
  destruct (chars idx !! pos); simpl; [|by intros [= <-]].
  destruct (bases_at indexes pos); simpl; [done|].
  intros [= <-]. by apply IH.
Qed.

Lemma table_row_raises indexes pos e :
  Forall is_sequence indexes → table_row indexes pos = Raise e →
  e = IndexError.
Proof.
  intros Hseq. unfold table_row.
  destruct (bases_at indexes pos) as [l|e'] eqn:Hl; simpl;
    [|intros [= <-]; by eapply bases_at_raises].
  pose proof (bases_at_sequences _ _ _ Hseq Hl) as Hbases.
  destruct (count_channel_total blue l Hbases) as [nb ->].
  destruct (count_channel_total green l Hbases) as [ng ->]. done.
Qed.

Lemma table_rows_total indexes l :
  Forall is_sequence indexes →
  Forall (λ pos, Forall (λ idx, pos < String.length idx) indexes) l →
  ∃ rows, Forall2 (λ pos row, table_row indexes pos = Ok row) l rows.
Proof.
  intros Hseq. induction 1 as [|pos l Hpos _ [rows IH]]; [by exists []|].
  destruct (table_row_total indexes pos Hseq Hpos) as [row Hrow].
  exists (row :: rows). by constructor.
Qed.

Lemma table_cons first rest :
  get_color_balance_table (first :: rest) =
    for_each (λ table pos, row ← table_row (first :: rest) pos;
                           Ok (table ++ [row]))
      [] (seq 0 (String.length first)).
Proof. reflexivity. Qed.

Lemma table_short_index first rest :
  Forall is_sequence (first :: rest) →
  Exists (λ idx, String.length idx < String.length first) rest →
  get_color_balance_table (first :: rest) = Raise IndexError.
Proof.
  intros Hseq (idx & Hidx & Hlt)%Exists_exists. rewrite table_cons.
  destruct (for_each _ _ _) as [table|e] eqn:Hloop.
  - apply table_loop_Ok in Hloop as (rows & Hrows & _).
    assert (seq 0 (String.length first) !! String.length idx
            = Some (String.length idx)) as Hpos by by apply lookup_seq.
    destruct (Forall2_lookup_l _ _ _ _ _ Hrows Hpos) as (row & _ & Hrow).
    apply table_row_Ok in Hrow as (l & Hl%bases_at_Ok & _).
    apply list_elem_of_lookup in Hidx as [k Hk].
    destruct (Forall2_lookup_l _ _ _ (S k) _ Hl Hk) as (b & _ & c & Hc & _).
    apply lookup_lt_Some in Hc.
    rewrite <- length_chars, chars_letters, length_fmap in Hc. lia.
  - f_equal.
    apply for_each_raises in Hloop as (table & pos & _ & Hrow).
    destruct (table_row (first :: rest) pos) as [row|e'] eqn:Hr; simpl in Hrow;
      [done|]. injection Hrow as ->. by eapply table_row_raises.
Qed.

Lemma table_first_length_total first rest :
  Forall is_sequence (first :: rest) →
  Forall (λ idx, String.length first ≤ String.length idx) rest →
  ∃ table, get_color_balance_table (first :: rest) = Ok table
         ∧ length table = String.length first.
Proof.
  intros Hseq Hlen.
  destruct (table_rows_total (first :: rest) (seq 0 (String.length first)))
    as [rows Hrows]; [done | |].
  { apply Forall_forall. intros pos [_ Hpos]%elem_of_seq.
    constructor; [done|]. eapply Forall_impl; [exact Hlen|]. simpl. lia. }
  exists rows. split.
  - rewrite table_cons. apply table_loop_Ok. by exists rows.
  - by rewrite <- (Forall2_length _ _ _ Hrows), length_seq.
Qed.

(** X11. The table builder takes the number of rows from the first index
    and does not compare the lengths: on sequences over A, C, G and T it
    returns one row for each position of the first index when no other index
    is shorter, whatever is longer being ignored, and it raises an IndexError
    when some index is shorter than the first. *)
Theorem table_first_index_length (first : string) (rest : list string) :
  Forall is_sequence (first :: rest) →
  (Forall (λ idx, String.length first ≤ String.length idx) rest →
     ∃ table, get_color_balance_table (first :: rest) = Ok table
            ∧ length table = String.length first)
  ∧ (Exists (λ idx, String.length idx < String.length first) rest →
     get_color_balance_table (first :: rest) = Raise IndexError).
Proof.
  intros Hseq.
  split; [by apply table_first_length_total | by apply table_short_index].
Qed.

(** *** Counts of a row *)

Lemma list_count_cons b x l :
  list_count b (x :: l) = (if decide (x = b) then 1 else 0) + list_count b l.
Proof. unfold list_count. rewrite filter_cons. by case_decide. Qed.

Lemma count_channel_bases ch l n :
  count_channel ch l = Ok n → Forall is_base_str l.
Proof.
  revert n. induction l as [|b l IH]; intros n; simpl; [done|].
  intros (p & Hp%colors_getitem_Ok & (m & Hl%IH & _)%bind_Ok)%bind_Ok.
  constructor; [|done]. apply colors_defined. by rewrite Hp.
Qed.

Lemma count_blue l n :
  count_channel blue l = Ok n → n = list_count "A" l + list_count "C" l.
Proof.
  revert n. induction l as [|b l IH]; intros n; simpl; [by intros [= <-]|].
  intros (p & Hp%colors_getitem_Ok & (m & ->%IH & [= <-])%bind_Ok)%bind_Ok.
  rewrite !list_count_cons. rewrite colors_lookup in Hp.
  repeat case_decide; simplify_eq; simpl; lia.
Qed.

Lemma count_green l n :
  count_channel green l = Ok n → n = list_count "C" l + list_count "T" l.
Proof.
  revert n. induction l as [|b l IH]; intros n; simpl; [by intros [= <-]|].
  intros (p & Hp%colors_getitem_Ok & (m & ->%IH & [= <-])%bind_Ok)%bind_Ok.
  rewrite !list_count_cons. rewrite colors_lookup in Hp.
  repeat case_decide; simplify_eq; simpl; lia.
Qed.

Lemma list_count_total l :
  Forall is_base_str l →
  list_count "A" l + list_count "C" l + list_count "G" l + list_count "T" l
  = length l.
Proof.
  induction 1 as [|b l Hb _ IH]; [done|]. rewrite !list_count_cons. simpl.
  destruct Hb as [-> | [-> | [-> | ->]]]; repeat case_decide; simplify_eq; lia.
Qed.

Lemma base_counts_lookup (f : string → nat) b :
  (list_to_map ((λ b, (b, f b)) <$> chars "ACGT") : gmap string nat) !! b
  = if decide (is_base_str b) then Some (f b) else None.
Proof.
  simpl. rewrite !lookup_insert, lookup_empty. unfold is_base_str.
  repeat case_decide; subst; try done; naive_solver.
Qed.

(** X12. In a table that the builder returns, row [i] has the number
    [i + 1] and one base for each index; its base counts are defined on A,
    C, G and T exactly and add up to the number of indexes; the blue count is
    the count of A plus that of C, the green count that of C plus that of T;
    and the status is pass exactly when the row is balanced, which is when
    both counts are positive. *)
Theorem table_row_counts (indexes : list string) (table : list TableRow.t)
    (i : nat) (row : TableRow.t) :
  get_color_balance_table indexes = Ok table → table !! i = Some row →
  TableRow.position row = (Z.of_nat i + 1)%Z
  ∧ length (TableRow.bases row) = length indexes
  ∧ (∀ b, TableRow.base_counts row !! b =
          if decide (is_base_str b)
          then Some (list_count b (TableRow.bases row)) else None)
  ∧ list_count "A" (TableRow.bases row) + list_count "C" (TableRow.bases row)
    + list_count "G" (TableRow.bases row) + list_count "T" (TableRow.bases row)
    = length indexes
  ∧ TableRow.blue_count row
    = list_count "A" (TableRow.bases row) + list_count "C" (TableRow.bases row)
  ∧ TableRow.green_count row
    = list_count "C" (TableRow.bases row) + list_count "T" (TableRow.bases row)
  ∧ (TableRow.is_balanced row = true ↔
       0 < TableRow.blue_count row ∧ 0 < TableRow.green_count row)
  ∧ (TableRow.status row = "pass" ↔ TableRow.is_balanced row = true)
  ∧ (TableRow.status row = "fail" ↔ TableRow.is_balanced row = false).
Proof.
  intros Htable Hrow. destruct indexes as [|first rest].
  { injection Htable as <-. by rewrite lookup_nil in Hrow. }
  rewrite table_cons in Htable.
  apply table_loop_Ok in Htable as (rows & Hrows & ->). simpl in Hrow.
  destruct (Forall2_lookup_r _ _ _ _ _ Hrows Hrow) as (pos & Hpos & Hr).
  apply lookup_seq in Hpos as [-> _]. simpl in Hr. unfold table_row in Hr.
  apply bind_Ok in Hr as (l & Hl & Hr).
  apply bind_Ok in Hr as (nb & Hb & Hr).
  apply bind_Ok in Hr as (ng & Hg & [= <-]). simpl.
  pose proof (count_channel_bases _ _ _ Hb) as Hbases.
  apply count_blue in Hb as ->. apply count_green in Hg as ->.
  assert (length l = length (first :: rest)) as Hlen.
  { apply bases_at_Ok in Hl. by rewrite (Forall2_length _ _ _ Hl). }
  split_and!; try done.
  - intros b. by rewrite <- (base_counts_lookup (λ b, list_count b l)).
  - by rewrite list_count_total.
  - by rewrite andb_true_iff, !Nat.ltb_lt.
  - by destruct (_ && _).
  - by destruct (_ && _).
Qed.

End TableMore.

(** * The route that checks a form *)

Section App.
Import PyStr PyStrFacts.

Variable order : gset nat → list nat.

Lemma check_unfold form :
  check order form =
    if negb (truthy (form_text form)) then
      Ok (Redirect "index" msg_please_enter "error")
    else
      match parse_indexes (form_text form) with
      | [] => Ok (Redirect "index" msg_no_valid "error")
      | _ :: _ =>
          res ← validate_indexes order (parse_indexes (form_text form));
          table ← get_color_balance_table (parse_indexes (form_text form));
          Ok (Render "results.html" res table (parse_indexes (form_text form)))
      end.
Proof. reflexivity. Qed.

Lemma validate_sequences_total indexes :
  Forall is_sequence indexes → ∃ r, validate_indexes order indexes = Ok r.
Proof.
  intros Hseq. destruct (equal_or_mixed indexes) as [Heq|Hmix].
  - by apply validate_indexes_total.
  - eexists. by apply validate_indexes_mixed.
Qed.

Lemma parsed_text_truthy text :
  parse_indexes text ≠ [] → truthy text = true.
Proof. destruct text; [by intros [] | done]. Qed.

(** X13. The outcomes of the route. A field that is absent, empty or blank
    redirects to the form with the message Please enter at least one index
    sequence; a text without an accepted token redirects with the message No
    valid index sequences found; otherwise the results are rendered with the
    validation of the parsed indexes and their table, unless a parsed index is
    shorter than the first one: then the table builder raises an IndexError
    and nothing is rendered, although the validation has returned. *)
Theorem check_outcomes (form : gmap string string) :
  (form_text form = EmptyString →
     check order form = Ok (Redirect "index" msg_please_enter "error"))
  ∧ (form_text form ≠ EmptyString → parse_indexes (form_text form) = [] →
     check order form = Ok (Redirect "index" msg_no_valid "error"))
  ∧ (∀ first rest, parse_indexes (form_text form) = first :: rest →
     Forall (λ idx, String.length first ≤ String.length idx) rest →
     ∃ res table,
       check order form = Ok (Render "results.html" res table (first :: rest))
       ∧ validate_indexes order (first :: rest) = Ok res
       ∧ get_color_balance_table (first :: rest) = Ok table
       ∧ length table = String.length first)
  ∧ (∀ first rest, parse_indexes (form_text form) = first :: rest →
     Exists (λ idx, String.length idx < String.length first) rest →
     check order form = Raise IndexError
     ∧ ∃ res, validate_indexes order (first :: rest) = Ok res).
Proof.
  rewrite check_unfold. pose proof (parse_indexes_sequences (form_text form)) as Hseq.
  split_and!.
  - by intros ->.
  - intros Hne ->. by destruct (form_text form).
  - intros first rest Hp Hlen. rewrite Hp in Hseq |- *.
    rewrite parsed_text_truthy by (by rewrite Hp). cbn [negb].
    destruct (validate_sequences_total _ Hseq) as [res Hres].
    destruct (table_first_length_total first rest Hseq Hlen)
      as (table & Htable & Hl).
    exists res, table. by rewrite Hres, Htable.
  - intros first rest Hp Hshort. rewrite Hp in Hseq |- *.
    rewrite parsed_text_truthy by (by rewrite Hp). cbn [negb].
    destruct (validate_sequences_total _ Hseq) as [res Hres].
    rewrite Hres, (table_short_index first rest Hseq Hshort). eauto.
Qed.

Lemma parse_indexes_tokens_nonempty input_text :
  Forall (λ tok, tok ≠ EmptyString) (parse_indexes input_text).
Proof.
  rewrite parse_indexes_filter. apply Forall_fmap, Forall_forall.
  intros tok [Hacc _]%list_elem_of_filter. simpl.
  by destruct (cleaned_sequence tok Hacc) as (? & ? & ?).
Qed.

Lemma table_length first rest table :
  get_color_balance_table (first :: rest) = Ok table →
  length table = String.length first.
Proof.
  rewrite table_cons. intros (rows & Hrows & ->)%table_loop_Ok. simpl.
  by rewrite <- (Forall2_length _ _ _ Hrows), length_seq.
Qed.

Lemma table_rows_analysed first rest table r :
  equal_length (first :: rest) →
  get_color_balance_table (first :: rest) = Ok table →
  validate_indexes order (first :: rest) = Ok r →
  Forall2 (λ row p, TableRow.position row = position p
                    ∧ TableRow.bases row = bases p
                    ∧ TableRow.is_balanced row = is_balanced p)
    table (positions r).
Proof.
  intros Heq Htable Hr. rewrite table_cons in Htable.
  apply table_loop_Ok in Htable as (rows & Hrows & ->). simpl.
  destruct (validate_indexes_Ok _ _ _ _ Heq Hr) as (Hrs & _).
  eapply Forall2_common_source; [|exact Hrows|exact Hrs].
  intros pos row p Hrow Hp. simpl in Hrow.
  by destruct (table_row_analysed _ _ _ _ Hrow Hp) as (? & ? & _ & _ & ?).
Qed.

(** X14. What the route renders is consistent: the indexes are the parsed
    ones, at least one, each a non-empty sequence over A, C, G and T; the
    result is their validation and is never the result for no indexes; the
    table is theirs and has a row. When the indexes have one length, table
    and result have the same positions with the same numbers, bases and
    balance; when they have not, the result is the length mismatch without
    positions while the table still has the rows of the first index. *)
Theorem check_rendered (form : gmap string string) (tpl : string)
    (res : ValidationResult) (table : list TableRow.t)
    (indexes : list string) :
  check order form = Ok (Render tpl res table indexes) →
  indexes = parse_indexes (form_text form)
  ∧ indexes ≠ []
  ∧ Forall (λ tok, tok ≠ EmptyString ∧ is_sequence tok) indexes
  ∧ validate_indexes order indexes = Ok res
  ∧ get_color_balance_table indexes = Ok table
  ∧ res ≠ empty_result
  ∧ table ≠ []
  ∧ (equal_length indexes →
       total_positions res = length table
       ∧ Forall2 (λ row p, TableRow.position row = position p
                           ∧ TableRow.bases row = bases p
                           ∧ TableRow.is_balanced row = is_balanced p)
           table (positions res))
  ∧ (mixed_lengths indexes →
       is_valid res = false ∧ positions res = [] ∧ total_positions res = 0).
Proof.
  rewrite check_unfold.
  pose proof (parse_indexes_sequences (form_text form)) as Hseq.
  pose proof (parse_indexes_tokens_nonempty (form_text form)) as Hne.
  destruct (truthy (form_text form)); [|done]. cbn [negb].
  destruct (parse_indexes (form_text form)) as [|first rest] eqn:Hp; [done|].
  intros (res' & Hres & (table' & Htable & [= <- <- <- <-])%bind_Ok)%bind_Ok.
  pose proof (table_length _ _ _ Htable) as Hlen.
  assert (first ≠ EmptyString) as Hfirst by by apply Forall_cons in Hne as [? _].
  assert (0 < String.length first) as Hpos by (destruct first; [done | simpl; lia]).
  split_and!; try done.
  - apply Forall_forall. intros tok Htok. rewrite Forall_forall in Hseq, Hne.
    auto.
  - intros ->. destruct (equal_or_mixed (first :: rest)) as [Heq|Hmix].
    + destruct (validate_indexes_Ok _ _ _ _ Heq Hres) as (_ & Htot & _).
      simpl in Htot. lia.
    + rewrite validate_indexes_mixed in Hres by done. done.
  - intros ->. simpl in Hlen. lia.
  - intros Heq. split; [|by apply (table_rows_analysed first rest)].
    destruct (validate_indexes_Ok _ _ _ _ Heq Hres) as (_ & Htot & _). lia.
  - intros Hmix. rewrite validate_indexes_mixed in Hres by done.
    by injection Hres as <-.
Qed.

End App.

(** * Further properties of the parser *)

Section ParserMore.
Import PyStr PyStrFacts.

(** *** White space around the text *)

Lemma lstrip_spaces l :
  Forall (λ c, isspace c = true) (letters l) → lstrip l = EmptyString.
Proof.
  induction l as [|a l IH]; simpl; [done|].
  intros [-> Hl]%Forall_cons. by apply IH.
Qed.

Lemma rstrip_spaces r :
  Forall (λ c, isspace c = true) (letters r) → rstrip r = EmptyString.
Proof.
  induction r as [|a r IH]; simpl; [done|].
  intros [-> Hr]%Forall_cons. by rewrite IH.
Qed.

Lemma lstrip_app_spaces l s :
  Forall (λ c, isspace c = true) (letters l) → lstrip (l +:+ s) = lstrip s.
Proof.
  induction l as [|a l IH]; [done|]. rewrite app_String. simpl.
  intros [-> Hl]%Forall_cons. by apply IH.
Qed.

Lemma lstrip_app t r :
  lstrip (t +:+ r) =
    if decide (lstrip t = EmptyString) then lstrip r else lstrip t +:+ r.
Proof.
  induction t as [|a t IH]; [done|]. rewrite app_String. simpl.
  destruct (isspace a); [done|]. by rewrite decide_False.
Qed.

Lemma rstrip_app_spaces s r :
  Forall (λ c, isspace c = true) (letters r) → rstrip (s +:+ r) = rstrip s.
Proof.
  intros Hr. induction s as [|a s IH]; [by apply rstrip_spaces|].
  rewrite app_String. simpl. by rewrite IH.
Qed.

Lemma strip_surrounded l t r :
  Forall (λ c, isspace c = true) (letters l) →
  Forall (λ c, isspace c = true) (letters r) →
  strip (l +:+ t +:+ r) = strip t.
Proof.
  intros Hl Hr. unfold strip. rewrite lstrip_app_spaces by done.
  rewrite lstrip_app. case_decide as Ht.
  - by rewrite (lstrip_spaces r), Ht.
  - by apply rstrip_app_spaces.
Qed.

(** X16. White space around the text does not change what parse returns:
    spaces, tabs, newlines and the like before and after a text are stripped
    before anything else is done. *)
Theorem parse_surrounding_space (l t r : string) :
  Forall (λ c, isspace c = true) (letters l) →
  Forall (λ c, isspace c = true) (letters r) →
  parse_indexes (l +:+ t +:+ r) = parse_indexes t.
Proof.
  intros Hl Hr. unfold parse_indexes, raw_indexes.
  by rewrite strip_surrounded.
Qed.

(** *** Case *)

Lemma isspace_upper c : isspace (upper_char c) = isspace c.
Proof. by destruct c as [[] [] [] [] [] [] [] []]. Qed.

Lemma upper_char_nl c : Ascii.eqb (upper_char c) nl = Ascii.eqb c nl.
Proof. by destruct c as [[] [] [] [] [] [] [] []]. Qed.

Lemma upper_char_comma c : Ascii.eqb (upper_char c) comma = Ascii.eqb c comma.
Proof. by destruct c as [[] [] [] [] [] [] [] []]. Qed.

Lemma upper_char_tab c : Ascii.eqb (upper_char c) tab = Ascii.eqb c tab.
Proof. by destruct c as [[] [] [] [] [] [] [] []]. Qed.

Lemma lstrip_upper s : lstrip (upper s) = upper (lstrip s).
Proof.
  induction s as [|a s IH]; simpl; [done|]. rewrite isspace_upper.
  by destruct (isspace a).
Qed.

Lemma rstrip_upper s : rstrip (upper s) = upper (rstrip s).
Proof.
  induction s as [|a s IH]; simpl; [done|]. rewrite IH, isspace_upper.
  destruct (rstrip s); simpl; [by destruct (isspace a) | done].
Qed.

Lemma strip_upper s : strip (upper s) = upper (strip s).
Proof. unfold strip. by rewrite lstrip_upper, rstrip_upper. Qed.

Section Separator.
Variable sep : ascii.
Hypothesis upper_char_sep :
  ∀ c, Ascii.eqb (upper_char c) sep = Ascii.eqb c sep.

Lemma contains_upper s : contains sep (upper s) = contains sep s.
Proof.
  induction s as [|a s IH]; simpl; [done|]. by rewrite upper_char_sep, IH.
Qed.

Lemma split_upper s : split sep (upper s) = upper <$> split sep s.
Proof.
  induction s as [|a s IH]; [done|]. simpl upper. rewrite !split_cons.
  rewrite upper_char_sep, IH. destruct (Ascii.eqb a sep); [done|].
  by destruct (split sep s).
Qed.

End Separator.

Lemma split_candidates_upper t :
  split_candidates (upper t) = upper <$> split_candidates t.
Proof.
  unfold split_candidates.
  rewrite !contains_upper, !split_upper
    by auto using upper_char_nl, upper_char_comma, upper_char_tab.
  by repeat case_match.
Qed.

Lemma clean_step_upper acc idx : clean_step acc (upper idx) = clean_step acc idx.
Proof. unfold clean_step. by rewrite strip_upper, upper_idem. Qed.

Lemma foldl_clean_step_upper acc l :
  foldl clean_step acc (upper <$> l) = foldl clean_step acc l.
Proof.
  revert acc. induction l as [|idx l IH]; intros acc; [done|].
  simpl. by rewrite clean_step_upper, IH.
Qed.

(** X17. The parser ignores case: a text and the same text in upper case
    parse to the same indexes. *)
Theorem parse_upper (input_text : string) :
  parse_indexes (upper input_text) = parse_indexes input_text.
Proof.
  unfold parse_indexes, raw_indexes.
  by rewrite strip_upper, split_candidates_upper, foldl_clean_step_upper.
Qed.

(** *** Joining and parsing back *)

Lemma string_app_assoc s1 s2 s3 : (s1 +:+ s2) +:+ s3 = s1 +:+ s2 +:+ s3.
Proof. induction s1; [done|]. rewrite !app_String. by f_equal. Qed.

Lemma is_base_not_space b : is_base b → isspace b = false.
Proof. by intros [-> | [-> | [-> | ->]]]. Qed.

Lemma is_base_not_separator b :
  is_base b → b ≠ nl ∧ b ≠ comma ∧ b ≠ tab.
Proof. by intros [-> | [-> | [-> | ->]]]. Qed.

Lemma rstrip_end s b :
  isspace b = false → rstrip (s +:+ String b EmptyString) = s +:+ String b EmptyString.
Proof.
  intros Hb. induction s as [|a s IH].
  - rewrite app_empty. simpl. by rewrite Hb.
  - rewrite app_String. simpl. rewrite IH.
    by destruct s.
Qed.

Lemma sequence_end s :
  s ≠ EmptyString → is_sequence s →
  ∃ v b, s = v +:+ String b EmptyString ∧ is_base b.
Proof.
  induction s as [|a s IH]; [done|]. intros _ [Ha Hs]%Forall_cons.
  destruct s as [|a' s'].
  - by exists EmptyString, a.
  - destruct IH as (v & b & -> & Hb); [done..|].
    exists (String a v), b. by rewrite app_String.
Qed.

Lemma join_end sep l :
  l ≠ [] → Forall (λ tok, tok ≠ EmptyString ∧ is_sequence tok) l →
  ∃ v b, join (char sep) l = v +:+ String b EmptyString ∧ is_base b.
Proof.
  induction l as [|tok [|tok' l] IH]; [done | |].
  - intros _ [[Hne Hseq] _]%Forall_cons. by apply sequence_end.
  - intros _ [_ Hl]%Forall_cons. destruct IH as (v & b & Hv & Hb); [done..|].
    exists (tok +:+ String sep v), b. split; [|done].
    rewrite join_cons, Hv, string_app_assoc. by rewrite app_String.
Qed.

Lemma join_strip sep l :
  l ≠ [] → Forall (λ tok, tok ≠ EmptyString ∧ is_sequence tok) l →
  strip (join (char sep) l) = join (char sep) l.
Proof.
  intros Hne Hl. destruct (join_end sep l Hne Hl) as (v & b & Hv & Hb).
  unfold strip.
  assert (lstrip (join (char sep) l) = join (char sep) l) as ->.
  { destruct l as [|tok l]; [done|].
    apply Forall_cons in Hl as [[Htok Hseq] _].
    destruct tok as [|a tok]; [done|]. apply Forall_cons in Hseq as [Ha _].
    destruct l; simpl; rewrite ?app_String; simpl;
      by rewrite (is_base_not_space a Ha). }
  rewrite Hv. by apply rstrip_end, is_base_not_space.
Qed.

Lemma sequence_no_separator c s :
  c = nl ∨ c = comma ∨ c = tab → is_sequence s → c ∉ letters s.
Proof.
  intros Hc Hs Hin. unfold is_sequence in Hs. rewrite Forall_forall in Hs.
  destruct (is_base_not_separator c (Hs c Hin)) as (? & ? & ?).
  by destruct Hc as [? | [? | ?]].
Qed.

Lemma letters_join sep l c :
  c ∈ letters (join (char sep) l) →
  c = sep ∨ ∃ tok, tok ∈ l ∧ c ∈ letters tok.
Proof.
  induction l as [|tok [|tok' l] IH]; simpl.
  - by intros ?%elem_of_nil.
  - intros Hc. right. exists tok. split; [by left | done].
  - rewrite letters_app. intros [Hc|Hc]%elem_of_app.
    + right. exists tok. split; [by left | done].
    + simpl in Hc. apply elem_of_cons in Hc as [-> | Hc]; [by left|].
      destruct (IH Hc) as [-> | (t & Ht & Hct)]; [by left|].
      right. exists t. split; [by right | done].
Qed.

Lemma join_separators sep c l :
  Forall (λ tok, tok ≠ EmptyString ∧ is_sequence tok) l →
  c = nl ∨ c = comma ∨ c = tab → c ≠ sep →
  c ∉ letters (join (char sep) l).
Proof.
  intros Hl Hc Hne [? | (tok & Htok & Hin)]%letters_join; [done|].
  rewrite Forall_forall in Hl. destruct (Hl tok Htok) as [_ Hseq].
  by apply (sequence_no_separator c tok).
Qed.

Lemma strip_sequence tok :
  tok ≠ EmptyString → is_sequence tok → strip tok = tok.
Proof.
  intros Hne Hseq.
  apply (join_strip nl [tok]); [done|]. by constructor.
Qed.

Lemma parse_tokens_kept l :
  Forall (λ tok, tok ≠ EmptyString ∧ is_sequence tok) l →
  foldl clean_step [] l = l.
Proof.
  intros Hl. rewrite foldl_clean_step. simpl.
  induction Hl as [|tok l [Hne Hseq] _ IH]; [done|].
  assert (strip tok = tok) as Hstrip by by apply strip_sequence.
  rewrite filter_cons, decide_True.
  - rewrite fmap_cons, IH. f_equal. unfold cleaned.
    rewrite Hstrip. by apply upper_fixed.
  - split; rewrite Hstrip; [done|]. eapply Forall_impl; [exact Hseq|].
    intros c Hc. by left.
Qed.

Lemma raw_indexes_join sep l :
  sep = nl ∨ sep = comma ∨ sep = tab → l ≠ [] →
  Forall (λ tok, tok ≠ EmptyString ∧ is_sequence tok) l →
  raw_indexes (join (char sep) l) = l.
Proof.
  intros Hsep Hne Hl. unfold raw_indexes. rewrite join_strip by done.
  assert (Forall (λ p, sep ∉ letters p) l) as Hnosep.
  { eapply Forall_impl; [exact Hl|]. intros tok [_ Hseq].
    by apply sequence_no_separator. }
  destruct (split_candidates_cases (join (char sep) l)) as (H1 & H2 & H3 & H4).
  destruct l as [|tok [|tok' l']]; [done | |].
  - simpl. apply Forall_cons in Hl as [[_ Hseq] _].
    apply H4; by apply sequence_no_separator; auto.
  - assert (sep ∈ letters (join (char sep) (tok :: tok' :: l'))) as Hin.
    { rewrite join_cons, letters_app. apply elem_of_app. right. by left. }
    assert (split sep (join (char sep) (tok :: tok' :: l')) = tok :: tok' :: l')
      as Hsplit by (symmetry; by apply cut_at_unique).
    destruct Hsep as [-> | [-> | ->]].
    + by rewrite H1.
    + rewrite H2; [done | | done]. by apply join_separators; auto.
    + rewrite H3; [done | | | done]; by apply join_separators; auto.
Qed.

(** X15. Joining and parsing back: a list of one or more non-empty
    sequences over A, C, G and T, joined by newlines, by commas or by tabs,
    parses to the list itself. *)
Theorem parse_join (sep : ascii) (l : list string) :
  sep = nl ∨ sep = comma ∨ sep = tab → l ≠ [] →
  Forall (λ tok, tok ≠ EmptyString ∧ is_sequence tok) l →
  parse_indexes (join (char sep) l) = l.
Proof.
  intros Hsep Hne Hl. unfold parse_indexes.
  rewrite raw_indexes_join by done. by apply parse_tokens_kept.
Qed.

End ParserMore.

(** * The further theorems at concrete inputs *)

Lemma validate_positions_columns_witness :
  let indexes := ["AT"; "CG"; "TT"] in
  indexes ≠ [] ∧ equal_length indexes
  ∧ ∃ r, validate_indexes order0 indexes = Ok r
    ∧ ∀ i p, positions r !! i = Some p →
        position p = (Z.of_nat i + 1)%Z
        ∧ length (bases p) = length indexes
        ∧ ∀ k idx, indexes !! k = Some idx →
            ∃ c, letters idx !! i = Some c ∧ bases p !! k = Some (PyStr.char c).
Proof.
  intros indexes.
  assert (indexes ≠ []) as Hne by done.
  assert (equal_length indexes) as Heq
    by (apply equal_length_Forall; solve_lengths).
  assert (Forall is_sequence indexes) as Hseq by solve_sequences.
  destruct (validate_indexes_total order0 indexes Heq Hseq) as [r Hr].
  split_and!; [done..|]. exists r. split; [exact Hr|].
  exact (validate_positions_columns order0 indexes r Hne Heq Hr).
Defined.

Lemma validate_indexes_raises_witness :
  validate_indexes order0 ["AN"] = Raise (KeyError "N")
  ∧ KeyError "N" ≠ IndexError
  ∧ ∃ idx c, idx ∈ ["AN"] ∧ c ∈ letters idx ∧ ¬ is_base c
           ∧ KeyError "N" = KeyError (PyStr.char c).
Proof.
  assert (validate_indexes order0 ["AN"] = Raise (KeyError "N")) as H
    by (vm_compute; reflexivity).
  split; [exact H | exact (validate_indexes_raises order0 ["AN"] _ H)].
Defined.

Lemma validate_warnings_witness :
  let indexes := ["GA"; "GC"] in
  indexes ≠ [] ∧ equal_length indexes
  ∧ ∃ r, validate_indexes order0 indexes = Ok r
    ∧ warnings r =
        (if decide (length indexes = 1) then [msg_single] else [])
        ++ omap recommendation (positions r)
    ∧ (∀ p, p ∈ positions r → is_balanced p = false →
         ∃ s, recommendation p = Some s ∧ s ∈ warnings r)
    ∧ length (failed_positions r) ≤ length (warnings r)
    ∧ length (warnings r) ≤ total_positions r + 1
    ∧ (is_valid r = false → warnings r ≠ []).
Proof.
  intros indexes.
  assert (indexes ≠ []) as Hne by done.
  assert (equal_length indexes) as Heq
    by (apply equal_length_Forall; solve_lengths).
  assert (Forall is_sequence indexes) as Hseq by solve_sequences.
  destruct (validate_indexes_total order0 indexes Heq Hseq) as [r Hr].
  split_and!; [done..|]. exists r. split; [exact Hr|].
  exact (validate_warnings order0 indexes r Hne Heq Hr).
Defined.

Lemma validate_summary_witness :
  let indexes := ["GA"; "GC"] in
  indexes ≠ [] ∧ equal_length indexes
  ∧ ∃ r, validate_indexes order0 indexes = Ok r
    ∧ String.prefix "PASS" (summary r) = is_valid r
    ∧ (is_valid r = true →
         (warnings r = [] ↔
            summary r = "PASS. All " +:+ pretty (total_positions r)
                        +:+ " positions are color-balanced."))
    ∧ (is_valid r = false →
         summary r = "FAIL. " +:+ pretty (length (failed_positions r))
                     +:+ " of " +:+ pretty (total_positions r)
                     +:+ " positions lack color balance."
         ∧ 1 ≤ length (failed_positions r) ≤ total_positions r).
Proof.
  intros indexes.
  assert (indexes ≠ []) as Hne by done.
  assert (equal_length indexes) as Heq
    by (apply equal_length_Forall; solve_lengths).
  assert (Forall is_sequence indexes) as Hseq by solve_sequences.
  destruct (validate_indexes_total order0 indexes Heq Hseq) as [r Hr].
  split_and!; [done..|]. exists r. split; [exact Hr|].
  exact (validate_summary order0 indexes r Hne Heq Hr).
Defined.

Lemma validate_permutation_witness :
  let order' : gset nat → list nat := λ s, reverse (elements s) in
  Forall is_sequence ["AT"; "CG"; "GG"]
  ∧ ["AT"; "CG"; "GG"] ≡ₚ ["CG"; "AT"; "GG"]
  ∧ ∃ r r', validate_indexes order0 ["AT"; "CG"; "GG"] = Ok r
    ∧ validate_indexes order' ["CG"; "AT"; "GG"] = Ok r'
    ∧ is_valid r = is_valid r'
    ∧ total_positions r = total_positions r'
    ∧ failed_positions r = failed_positions r'
    ∧ summary r = summary r'
    ∧ Forall2 same_analysis (positions r) (positions r')
    ∧ (equal_length ["AT"; "CG"; "GG"] → warnings r = warnings r')
    ∧ (mixed_lengths ["AT"; "CG"; "GG"] →
         warnings r = [msg_lengths order0 (lengths_of ["AT"; "CG"; "GG"])]
         ∧ warnings r' = [msg_lengths order' (lengths_of ["AT"; "CG"; "GG"])]).
Proof.
  intros order'.
  assert (Forall is_sequence ["AT"; "CG"; "GG"]) as Hseq by solve_sequences.
  assert (["AT"; "CG"; "GG"] ≡ₚ ["CG"; "AT"; "GG"]) as Hperm
    by apply Permutation_swap.
  split_and!; [done..|].
  exact (validate_permutation order0 order' _ _ Hseq Hperm).
Defined.


Lemma table_first_index_length_witness :
  Forall is_sequence ["AT"; "C"]
  ∧ (Forall (λ idx, String.length "AT" ≤ String.length idx) ["C"] →
       ∃ table, get_color_balance_table ["AT"; "C"] = Ok table
              ∧ length table = String.length "AT")
  ∧ (Exists (λ idx, String.length idx < String.length "AT") ["C"] →
       get_color_balance_table ["AT"; "C"] = Raise IndexError).
Proof.
  assert (Forall is_sequence ["AT"; "C"]) as Hseq by solve_sequences.
  split; [exact Hseq | exact (table_first_index_length "AT" ["C"] Hseq)].
Defined.

Lemma table_row_counts_witness :
  ∃ table row,
    get_color_balance_table ["AT"; "CG"; "CT"] = Ok table
    ∧ table !! 0 = Some row
    ∧ TableRow.position row = (Z.of_nat 0 + 1)%Z
    ∧ length (TableRow.bases row) = length ["AT"; "CG"; "CT"]
    ∧ (∀ b, TableRow.base_counts row !! b =
            if decide (is_base_str b)
            then Some (list_count b (TableRow.bases row)) else None)
    ∧ list_count "A" (TableRow.bases row) + list_count "C" (TableRow.bases row)
      + list_count "G" (TableRow.bases row)
      + list_count "T" (TableRow.bases row)
      = length ["AT"; "CG"; "CT"]
    ∧ TableRow.blue_count row
      = list_count "A" (TableRow.bases row)
        + list_count "C" (TableRow.bases row)
    ∧ TableRow.green_count row
      = list_count "C" (TableRow.bases row)
        + list_count "T" (TableRow.bases row)
    ∧ (TableRow.is_balanced row = true ↔
         0 < TableRow.blue_count row ∧ 0 < TableRow.green_count row)
    ∧ (TableRow.status row = "pass" ↔ TableRow.is_balanced row = true)
    ∧ (TableRow.status row = "fail" ↔ TableRow.is_balanced row = false).
Proof.
  destruct (get_color_balance_table ["AT"; "CG"; "CT"]) as [table|e] eqn:Ht;
    [|vm_compute in Ht; discriminate Ht].
  destruct (table !! 0) as [row|] eqn:Hrow.
  - exists table, row. split; [done|]. split; [done|].
    exact (table_row_counts ["AT"; "CG"; "CT"] table 0 row Ht Hrow).
  - apply lookup_ge_None in Hrow. apply table_length in Ht. simpl in Ht. lia.
Defined.

Lemma check_rendered_witness :
  let form : gmap string string := {[ "indexes" := "at,cg" ]} in
  ∃ tpl res table indexes,
    check order0 form = Ok (Render tpl res table indexes)
    ∧ indexes = parse_indexes (form_text form)
    ∧ indexes ≠ []
    ∧ Forall (λ tok, tok ≠ EmptyString ∧ is_sequence tok) indexes
    ∧ validate_indexes order0 indexes = Ok res
    ∧ get_color_balance_table indexes = Ok table
    ∧ res ≠ empty_result
    ∧ table ≠ []
    ∧ (equal_length indexes →
         total_positions res = length table
         ∧ Forall2 (λ row p, TableRow.position row = position p
                             ∧ TableRow.bases row = bases p
                             ∧ TableRow.is_balanced row = is_balanced p)
             table (positions res))
    ∧ (mixed_lengths indexes →
         is_valid res = false ∧ positions res = []
         ∧ total_positions res = 0).
Proof.
  intros form.
  destruct (check order0 form) as [[ep msg cat | tpl res table indexes] | e]
    eqn:Hc; [vm_compute in Hc; discriminate Hc | | vm_compute in Hc; discriminate Hc].
  exists tpl, res, table, indexes. split; [done|].
  exact (check_rendered order0 form tpl res table indexes Hc).
Defined.

Lemma parse_join_witness :
  (comma = nl ∨ comma = comma ∨ comma = tab) ∧ ["AT"; "CG"] ≠ []
  ∧ Forall (λ tok, tok ≠ EmptyString ∧ is_sequence tok) ["AT"; "CG"]
  ∧ parse_indexes (PyStr.join (PyStr.char comma) ["AT"; "CG"]) = ["AT"; "CG"].
Proof.
  assert (comma = nl ∨ comma = comma ∨ comma = tab) as Hsep by auto.
  assert (["AT"; "CG"] ≠ []) as Hne by done.
  assert (Forall (λ tok, tok ≠ EmptyString ∧ is_sequence tok) ["AT"; "CG"])
    as Hl by (repeat (apply Forall_cons; split; [split; [done | solve_sequence]|]);
              apply Forall_nil_2).
  split_and!; [done..|]. exact (parse_join comma ["AT"; "CG"] Hsep Hne Hl).
Defined.

Lemma parse_surrounding_space_witness :
  Forall (λ c, PyStr.isspace c = true) (letters (" " +:+ PyStr.char nl))
  ∧ Forall (λ c, PyStr.isspace c = true) (letters (PyStr.char nl))
  ∧ parse_indexes ((" " +:+ PyStr.char nl) +:+ "AT,CG" +:+ PyStr.char nl)
    = parse_indexes "AT,CG".
Proof.
  assert (Forall (λ c, PyStr.isspace c = true)
            (letters (" " +:+ PyStr.char nl))) as Hl
    by (repeat constructor).
  assert (Forall (λ c, PyStr.isspace c = true) (letters (PyStr.char nl))) as Hr
    by (repeat constructor).
  split_and!; [done..|].
  exact (parse_surrounding_space _ "AT,CG" _ Hl Hr).
Defined.
